(** * libtonc math core: fixed-point arithmetic, sine table lookup and
      geometric primitives (tonc_math.hpp)

    A shallow embedding of the inline functions and macros of
    [tonc_math.hpp], and the properties of them that the specification
    states.

    Conventions of the embedding.

    - Machine integers are values of [Z] kept in the range of their C++
      type.  [int], [s32] and [FIXED] are 32-bit signed, [uint] and [u32]
      are 32-bit unsigned, [s64] is 64-bit signed.
    - Every arithmetic operator is written with the conversion the C++
      rules give it.  When one operand is [int] and the other [u32], both
      are converted to [u32] and the operation is unsigned; this matters
      for [FIX_SCALE] and [FIX_MASK], which the header declares as
      [constexpr const u32].  A shift has the type of its promoted left
      operand, so [fx >> FIX_SHIFT] stays signed (arithmetic shift).
    - Signed overflow is two's-complement wrap-around ([to_s32], [to_s64]),
      the behaviour of the ARM target and the one the specification
      describes; narrowing conversions wrap in the same way.
    - Division by zero has no result: [None].
    - Structs live in a heap indexed by pointers, and the functions that
      take [POINT *], [RECT *] or [VECTOR *] are heap transformers, so that
      a destination may alias an operand as it can in the source. *)

From Stdlib Require Import ZArith Lia.
From stdpp Require Import base option gmap.

Local Open Scope Z_scope.

(* ===================================================================== *)
(** * Machine integers *)
(* ===================================================================== *)

(** Modelled from the spec: the integer types.  [tonc_types.hpp], which
    declares [FIXED], [s16], [s32], [s64], [u32] and [uint], is not among
    the sources.  The spec gives [FIXED] as a 32-bit signed integer, the
    sine table's entries as signed 16-bit and the angle as unsigned 32-bit;
    [s32], [u32] and [s64] have the widths and signs of their names, and
    [int] and [uint] are the 32-bit native types of the target. *)
Definition is_s32 (z : Z) : Prop := -2^31 <= z < 2^31.
Definition is_u32 (z : Z) : Prop := 0 <= z < 2^32.
Definition is_s64 (z : Z) : Prop := -2^63 <= z < 2^63.

(** Conversion to [u32]: reduction modulo 2^32. *)
Definition to_u32 (z : Z) : Z := z mod 2^32.

(** Conversion to [s32] / [int]: the representative in [-2^31, 2^31). *)
Definition to_s32 (z : Z) : Z := (z + 2^31) mod 2^32 - 2^31.

(** Conversion to [s64]. *)
Definition to_s64 (z : Z) : Z := (z + 2^63) mod 2^64 - 2^63.

(** [int] arithmetic. *)
Definition int_add (a b : Z) : Z := to_s32 (a + b).
Definition int_sub (a b : Z) : Z := to_s32 (a - b).
Definition int_mul (a b : Z) : Z := to_s32 (a * b).

(** [a / b] on [int]: truncates toward zero; no result for [b = 0] or for
    the one overflowing quotient. *)
Definition int_div (a b : Z) : option Z :=
  if decide (b = 0) then None
  else if decide (a = -2^31 /\ b = -1) then None
  else Some (Z.quot a b).

(** [a << n] and [a >> n] on [int]; the shift count must be in [0, 32). *)
Definition int_shl (a n : Z) : option Z :=
  if decide (0 <= n < 32) then Some (to_s32 (Z.shiftl a n)) else None.
Definition int_shr (a n : Z) : option Z :=
  if decide (0 <= n < 32) then Some (Z.shiftr a n) else None.

(* ===================================================================== *)
(** * General *)
(* ===================================================================== *)

(** [-a] on [int]. *)
Definition int_neg (a : Z) : Z := to_s32 (- a).

(** [#define ABS(x) ((x) >= 0 ? (x) : -(x))], on [int]. *)
Definition ABS (x : Z) : Z := if decide (x >= 0) then x else int_neg x.

(** [#define SGN3(x) ((x) > 0 ? 1 : ((x) < 0 ? -1 : 0))] *)
Definition SGN3 (x : Z) : Z :=
  if decide (x > 0) then 1 else if decide (x < 0) then -1 else 0.

(** [#define IN_RANGE(x, min, max) (((x) >= (min)) && ((x) < (max)))] *)
Definition IN_RANGE (x min max : Z) : bool :=
  bool_decide (x >= min) && bool_decide (x < max).

(** [return (x >= 0) ? +1 : -1;] *)
Definition sgn (x : Z) : Z := if decide (x >= 0) then 1 else -1.

(** [return (x >> 31) - (-x >> 31);] *)
Definition sgn3 (x : Z) : Z :=
  int_sub (Z.shiftr x 31) (Z.shiftr (int_neg x) 31).

(** [return (a > b) ? (a) : (b);] *)
Definition max (a b : Z) : Z := if decide (a > b) then a else b.

(** [return (a < b) ? (a) : (b);] *)
Definition min (a b : Z) : Z := if decide (a < b) then a else b.

(** [return (u32)(x - min) < (u32)(max - min);] *)
Definition in_range (x min max : Z) : bool :=
  bool_decide (to_u32 (int_sub x min) < to_u32 (int_sub max min)).

(** [return (x >= max) ? (max - 1) : ((x < min) ? min : x);] *)
Definition clamp (x min max : Z) : Z :=
  if decide (x >= max) then int_sub max 1
  else if decide (x < min) then min else x.

(** [return (x >= max) ? (2 * (max - 1) - x) : ((x < min) ? (2 * min - x) : x);] *)
Definition reflect (x min max : Z) : Z :=
  if decide (x >= max) then int_sub (int_mul 2 (int_sub max 1)) x
  else if decide (x < min) then int_sub (int_mul 2 min) x else x.

(** [return (x >= max) ? (x + min - max) : ((x < min) ? (x + max - min) : x);] *)
Definition wrap (x min max : Z) : Z :=
  if decide (x >= max) then int_sub (int_add x min) max
  else if decide (x < min) then int_sub (int_add x max) min else x.

(* ===================================================================== *)
(** * Fixed point *)
(* ===================================================================== *)

(** [constexpr const u32 FIX_SHIFT = 8U] and the two constants derived
    from it, all of type [u32]. *)
Definition FIX_SHIFT : Z := 8.
Definition FIX_SCALE : Z := to_u32 (Z.shiftl 1 FIX_SHIFT).
Definition FIX_MASK : Z := to_u32 (FIX_SCALE - 1).

(** [#define FX_RECIPROCAL(a, fp) (((1 << (fp)) + (a) - 1) / (a))] *)
Definition FX_RECIPROCAL (a fp : Z) : option Z :=
  n ← int_shl 1 fp;
  int_div (int_sub (int_add n a) 1) a.

(** [#define FX_RECIMUL(x, a, fp) (((x) * ((1 << (fp)) + (a) - 1) / (a)) >> (fp))]

    [*] and [/] associate to the left: the macro divides the product
    [x * (2^fp + a - 1)] by [a]; it does not multiply [x] by
    [FX_RECIPROCAL(a, fp)]. *)
Definition FX_RECIMUL (x a fp : Z) : option Z :=
  n ← int_shl 1 fp;
  q ← int_div (int_mul x (int_sub (int_add n a) 1)) a;
  int_shr q fp.

(** [return d << FIX_SHIFT;] *)
Definition int2fx (d : Z) : Z := to_s32 (Z.shiftl d FIX_SHIFT).

(** [return fx >> FIX_SHIFT;] with return type [u32]: the shift is
    arithmetic, on [int]; its result is converted to [u32]. *)
Definition fx2uint (fx : Z) : Z := to_u32 (Z.shiftr fx FIX_SHIFT).

(** [return fx & FIX_MASK;] with return type [u32]. *)
Definition fx2ufrac (fx : Z) : Z := Z.land (to_u32 fx) FIX_MASK.

(** [return fx / FIX_SCALE;] with return type [int].  [FIX_SCALE] is a
    [u32], so [fx] is converted to [u32] and the division is unsigned; the
    quotient is converted back to [int]. *)
Definition fx2int (fx : Z) : Z := to_s32 (to_u32 fx / FIX_SCALE).

(** [return fa + fb;] and [return fa - fb;] *)
Definition fxadd (fa fb : Z) : Z := int_add fa fb.
Definition fxsub (fa fb : Z) : Z := int_sub fa fb.

(** [return (fa * fb) >> FIX_SHIFT;] *)
Definition fxmul (fa fb : Z) : Z := Z.shiftr (int_mul fa fb) FIX_SHIFT.

(** [return ((fa)*FIX_SCALE) / (fb);]  The product has type [u32] (because
    [FIX_SCALE] has), so [fb] is converted to [u32] too and the division is
    unsigned; the quotient is converted to [FIXED]. *)
Definition fxdiv (fa fb : Z) : option Z :=
  if decide (fb = 0) then None
  else Some (to_s32 (to_u32 (to_u32 fa * FIX_SCALE) / to_u32 fb)).

(** [return (((s64)fa) * fb) >> FIX_SHIFT;]  The shifted 64-bit value is
    converted to the 32-bit return type [FIXED]. *)
Definition fxmul64 (fa fb : Z) : Z :=
  to_s32 (Z.shiftr (to_s64 (fa * fb)) FIX_SHIFT).

(** [return (((s64)fa) << FIX_SHIFT) / (fb);]  A signed 64-bit division,
    converted to [FIXED]. *)
Definition fxdiv64 (fa fb : Z) : option Z :=
  if decide (fb = 0) then None
  else Some (to_s32 (Z.quot (to_s64 (Z.shiftl fa FIX_SHIFT)) fb)).

(** The distance used for "within one unit in the last place": [r] is
    within one unit of the exact scaled product [fa * fb / 256]. *)
Definition within_one_ulp (r fa fb : Z) : Prop :=
  Z.abs (256 * r - fa * fb) <= 256.

(* ===================================================================== *)
(** * Look-up tables *)
(* ===================================================================== *)

(** [#define SIN_LUT_SIZE 514] *)
Definition SIN_LUT_SIZE : nat := 514.

Section Lut.
(** [extern s16 sin_lut[514];]  The table's data is not part of the
    header; the look-ups are parameterised by it.  Reading past the end
    of the list has no result. *)
Variable sin_lut : list Z.

(** Index expressions of the two look-ups, on [uint]. *)
Definition lu_sin_index (theta : Z) : Z :=
  Z.land (Z.shiftr theta 7) 0x1FF.
Definition lu_cos_index (theta : Z) : Z :=
  Z.land (to_u32 (Z.shiftr theta 7 + 128)) 0x1FF.

(** [return sin_lut[(theta >> 7) & 0x1FF];]  The [s16] entry is widened
    to the [s32] return type. *)
Definition lu_sin (theta : Z) : option Z :=
  to_s32 <$> sin_lut !! Z.to_nat (lu_sin_index theta).

(** [return sin_lut[((theta >> 7) + 128) & 0x1FF];] *)
Definition lu_cos (theta : Z) : option Z :=
  to_s32 <$> sin_lut !! Z.to_nat (lu_cos_index theta).
End Lut.

(** [a >> n] on [uint]; the shift count must be in [0, 32). *)
Definition uint_shr (a n : Z) : option Z :=
  if decide (0 <= n < 32) then Some (Z.shiftr a n) else None.

(** [lut[i]] for an [int] index: no result outside the table. *)
Definition entry (lut : list Z) (i : Z) : option Z :=
  if decide (0 <= i) then lut !! Z.to_nat i else None.

(** [xa = x >> shift; ya = lut[xa]; yb = lut[xa + 1];
     return ya + ((yb - ya) * (x - (xa << shift)) >> shift);]

    [x] and [shift] are [uint], [xa], [ya] and [yb] are [int].  The
    fraction [x - (xa << shift)] is a [uint], so the product with
    [yb - ya] is unsigned, the shift of the product is a logical shift, and
    the sum with [ya] is unsigned; it is converted to the [int] result. *)
Definition lu_lerp32 (lut : list Z) (x shift : Z) : option Z :=
  xa ← to_s32 <$> uint_shr x shift;
  ya ← entry lut xa;
  yb ← entry lut (int_add xa 1);
  lo ← int_shl xa shift;
  sh ← uint_shr (to_u32 (to_u32 (int_sub yb ya) * to_u32 (x - to_u32 lo)))
         shift;
  Some (to_s32 (to_u32 (to_u32 ya + sh))).

(** As [lu_lerp32]; the entries of the table are [s16] and are promoted to
    [int] when read. *)
Definition lu_lerp16 (lut : list Z) (x shift : Z) : option Z :=
  xa ← to_s32 <$> uint_shr x shift;
  ya ← entry lut xa;
  yb ← entry lut (int_add xa 1);
  lo ← int_shl xa shift;
  sh ← uint_shr (to_u32 (to_u32 (int_sub yb ya) * to_u32 (x - to_u32 lo)))
         shift;
  Some (to_s32 (to_u32 (to_u32 ya + sh))).

(** A table of the right size whose entry [i] is [i]: a look-up in it
    returns the index it read. *)
Definition index_lut : list Z := Z.of_nat <$> seq 0 SIN_LUT_SIZE.

(* ===================================================================== *)
(** * Structs behind pointers *)
(* ===================================================================== *)

(** A pointer is an address; a heap maps the addresses of live objects of
    one struct type to their values.  Two pointers to objects of the same
    type are either equal (aliases) or name disjoint objects. *)
Abbreviation ptr := positive (only parsing).
Abbreviation heap T := (gmap positive T) (only parsing).

(** A struct of [int]-sized fields: [fget] reads a field, [fset] writes
    one and leaves the others. *)
Class Struct (T F : Type) := {
  fget : F -> T -> Z;
  fset : F -> Z -> T -> T;
  fget_fset_eq : forall f z t, fget f (fset f z t) = z;
  fget_fset_ne : forall f g z t, f <> g -> fget g (fset f z t) = fget g t;
}.

Section Statements.
Context {T F : Type} `{!Struct T F}.

(** [p->f] as an rvalue. *)
Definition load (p : ptr) (f : F) (h : heap T) : option Z :=
  fget f <$> h !! p.

(** Writing [z] to [p->f]. *)
Definition store (p : ptr) (f : F) (z : Z) (h : heap T) : option (heap T) :=
  t ← h !! p; Some (<[p := fset f z t]> h).

(** A constant or a by-value parameter. *)
Definition val (z : Z) (h : heap T) : option Z := Some z.

(** [e1 op e2] *)
Definition binop (op : Z -> Z -> Z) (e1 e2 : heap T -> option Z)
    (h : heap T) : option Z :=
  a ← e1 h; b ← e2 h; Some (op a b).

(** [p->f = e;] *)
Definition assign (p : ptr) (f : F) (e : heap T -> option Z)
    (h : heap T) : option (heap T) :=
  z ← e h; store p f z h.

(** [s1 s2] *)
Definition stmt_seq (s1 s2 : heap T -> option (heap T)) (h : heap T)
    : option (heap T) :=
  h1 ← s1 h; s2 h1.

(** [s return p;] *)
Definition returning (s : heap T -> option (heap T)) (p : ptr) (h : heap T)
    : option (ptr * heap T) :=
  h1 ← s h; Some (p, h1).
End Statements.

Declare Scope stmt_scope.
Delimit Scope stmt_scope with stmt.
Notation "e1 +' e2" := (binop int_add e1 e2)
  (at level 50, left associativity) : stmt_scope.
Notation "e1 -' e2" := (binop int_sub e1 e2)
  (at level 50, left associativity) : stmt_scope.
Notation "s1 ;; s2" := (stmt_seq s1 s2)
  (at level 100, s2 at level 200, right associativity) : stmt_scope.
Local Open Scope stmt_scope.

(* --------------------------------------------------------------------- *)
(** ** Integer variables *)
(* --------------------------------------------------------------------- *)

(** An [int] variable is an object with the single field [VALUE]; the
    lvalues a macro is applied to are given by their addresses, which may
    coincide. *)
Inductive INT_field := VALUE.

#[export] Instance INT_struct : Struct Z INT_field.
Proof.
  refine {| fget := fun _ z => z; fset := fun _ z _ => z |}.
  - reflexivity.
  - intros [] []; congruence.
Defined.

(** [#define SWAP2(a, b) do { a = (a) - (b); b = (a) + (b); a = (b) - (a); } while (0)] *)
Definition SWAP2 (a b : ptr) : heap Z -> option (heap Z) :=
  assign a VALUE (load a VALUE -' load b VALUE) ;;
  assign b VALUE (load a VALUE +' load b VALUE) ;;
  assign a VALUE (load b VALUE -' load a VALUE).

(** [#define SWAP3(a, b, tmp) do { (tmp) = (a); (a) = (b); (b) = (tmp); } while (0)] *)
Definition SWAP3 (a b tmp : ptr) : heap Z -> option (heap Z) :=
  assign tmp VALUE (load a VALUE) ;;
  assign a VALUE (load b VALUE) ;;
  assign b VALUE (load tmp VALUE).

(* --------------------------------------------------------------------- *)
(** ** Point *)
(* --------------------------------------------------------------------- *)

(** [typedef struct POINT { int x, y; } POINT;] *)
Record POINT := mkPOINT { pt_x : Z; pt_y : Z }.

Inductive POINT_field := PX | PY.

Definition POINT_get (f : POINT_field) (p : POINT) : Z :=
  match f with PX => pt_x p | PY => pt_y p end.

Definition POINT_set (f : POINT_field) (z : Z) (p : POINT) : POINT :=
  match f with
  | PX => mkPOINT z (pt_y p)
  | PY => mkPOINT (pt_x p) z
  end.

#[export] Instance POINT_struct : Struct POINT POINT_field.
Proof.
  refine {| fget := POINT_get; fset := POINT_set |}.
  - intros [] z []; reflexivity.
  - intros [] [] z []; simpl; congruence.
Defined.

(** [pd->x = x; pd->y = y; return pd;] *)
Definition pt_set (pd : ptr) (x y : Z) :=
  returning (assign pd PX (val x) ;; assign pd PY (val y)) pd.

(** [pd->x = pa->x + pb->x; pd->y = pa->x + pb->y; return pd;] *)
Definition pt_add (pd pa pb : ptr) :=
  returning (assign pd PX (load pa PX +' load pb PX) ;;
             assign pd PY (load pa PX +' load pb PY)) pd.

(** [pd->x = pa->x - pb->x; pd->y = pa->x - pb->y; return pd;] *)
Definition pt_sub (pd pa pb : ptr) :=
  returning (assign pd PX (load pa PX -' load pb PX) ;;
             assign pd PY (load pa PX -' load pb PY)) pd.

(** [pd->x += pb->y; pd->y += pb->y; return pd;] *)
Definition pt_add_eq (pd pb : ptr) :=
  returning (assign pd PX (load pd PX +' load pb PY) ;;
             assign pd PY (load pd PY +' load pb PY)) pd.

(** [pd->x -= pb->y; pd->y -= pb->y; return pd;] *)
Definition pt_sub_eq (pd pb : ptr) :=
  returning (assign pd PX (load pd PX -' load pb PY) ;;
             assign pd PY (load pd PY -' load pb PY)) pd.

(** [pd->x = pa->x * c; pd->y = pa->y * c; return pd;] *)
Definition pt_scale (pd pa : ptr) (c : Z) :=
  returning (assign pd PX (binop int_mul (load pa PX) (val c)) ;;
             assign pd PY (binop int_mul (load pa PY) (val c))) pd.

(** [pd->x *= c; pd->y *= c; return pd;] *)
Definition pt_scale_eq (pd : ptr) (c : Z) :=
  returning (assign pd PX (binop int_mul (load pd PX) (val c)) ;;
             assign pd PY (binop int_mul (load pd PY) (val c))) pd.

(** [return pa->x * pb->y - pa->y * pb->x;] *)
Definition pt_cross (pa pb : ptr) : heap POINT -> option Z :=
  binop int_mul (load pa PX) (load pb PY)
  -' binop int_mul (load pa PY) (load pb PX).

(** [return pa->x * pb->x + pa->y * pb->y;] *)
Definition pt_dot (pa pb : ptr) : heap POINT -> option Z :=
  binop int_mul (load pa PX) (load pb PX)
  +' binop int_mul (load pa PY) (load pb PY).

(* --------------------------------------------------------------------- *)
(** ** Rect *)
(* --------------------------------------------------------------------- *)

(** [typedef struct RECT { int left, top; int right, bottom; } RECT;] *)
Record RECT := mkRECT {
  rc_left : Z; rc_top : Z; rc_right : Z; rc_bottom : Z
}.

Inductive RECT_field := LEFT | TOP | RIGHT | BOTTOM.

Definition RECT_get (f : RECT_field) (r : RECT) : Z :=
  match f with
  | LEFT => rc_left r | TOP => rc_top r
  | RIGHT => rc_right r | BOTTOM => rc_bottom r
  end.

Definition RECT_set (f : RECT_field) (z : Z) (r : RECT) : RECT :=
  match f with
  | LEFT => mkRECT z (rc_top r) (rc_right r) (rc_bottom r)
  | TOP => mkRECT (rc_left r) z (rc_right r) (rc_bottom r)
  | RIGHT => mkRECT (rc_left r) (rc_top r) z (rc_bottom r)
  | BOTTOM => mkRECT (rc_left r) (rc_top r) (rc_right r) z
  end.

#[export] Instance RECT_struct : Struct RECT RECT_field.
Proof.
  refine {| fget := RECT_get; fset := RECT_set |}.
  - intros [] z []; reflexivity.
  - intros [] [] z []; simpl; congruence.
Defined.

(** The [int] fields of a rect are in range. *)
Definition RECT_ok (r : RECT) : Prop :=
  is_s32 (rc_left r) /\ is_s32 (rc_top r) /\
  is_s32 (rc_right r) /\ is_s32 (rc_bottom r).

(** [rc->left = l; rc->top = t; rc->right = r; rc->bottom = b; return rc;] *)
Definition rc_set (rc : ptr) (l t r b : Z) :=
  returning (assign rc LEFT (val l) ;;
             assign rc TOP (val t) ;;
             assign rc RIGHT (val r) ;;
             assign rc BOTTOM (val b)) rc.

(** [rc->left = x; rc->top = y; rc->right = x + w; rc->bottom = y + h;
     return rc;] *)
Definition rc_set2 (rc : ptr) (x y w h : Z) :=
  returning (assign rc LEFT (val x) ;;
             assign rc TOP (val y) ;;
             assign rc RIGHT (val x +' val w) ;;
             assign rc BOTTOM (val y +' val h)) rc.

(** [return rc->right - rc->left;] *)
Definition rc_width (rc : ptr) : heap RECT -> option Z :=
  load rc RIGHT -' load rc LEFT.

(** [return rc->bottom - rc->top;] *)
Definition rc_height (rc : ptr) : heap RECT -> option Z :=
  load rc BOTTOM -' load rc TOP.

(** [rc->right += x - rc->left; rc->left = x;
     rc->bottom += y - rc->top; rc->top = y; return rc;] *)
Definition rc_set_pos (rc : ptr) (x y : Z) :=
  returning (assign rc RIGHT (load rc RIGHT +' (val x -' load rc LEFT)) ;;
             assign rc LEFT (val x) ;;
             assign rc BOTTOM (load rc BOTTOM +' (val y -' load rc TOP)) ;;
             assign rc TOP (val y)) rc.

(** [rc->right = rc->left + w; rc->bottom = rc->top + h; return rc;] *)
Definition rc_set_size (rc : ptr) (w h : Z) :=
  returning (assign rc RIGHT (load rc LEFT +' val w) ;;
             assign rc BOTTOM (load rc TOP +' val h)) rc.

(** [rc->left += dx; rc->top += dy; rc->right += dx; rc->bottom += dy;
     return rc;] *)
Definition rc_move (rc : ptr) (dx dy : Z) :=
  returning (assign rc LEFT (load rc LEFT +' val dx) ;;
             assign rc TOP (load rc TOP +' val dy) ;;
             assign rc RIGHT (load rc RIGHT +' val dx) ;;
             assign rc BOTTOM (load rc BOTTOM +' val dy)) rc.

(** [rc->left -= dw; rc->top -= dh; rc->right += dw; rc->bottom += dh;
     return rc;] *)
Definition rc_inflate (rc : ptr) (dw dh : Z) :=
  returning (assign rc LEFT (load rc LEFT -' val dw) ;;
             assign rc TOP (load rc TOP -' val dh) ;;
             assign rc RIGHT (load rc RIGHT +' val dw) ;;
             assign rc BOTTOM (load rc BOTTOM +' val dh)) rc.

(** [rc->left += dr->left; rc->top += dr->top; rc->right += dr->right;
     rc->bottom += dr->bottom; return rc;] *)
Definition rc_inflate2 (rc dr : ptr) :=
  returning (assign rc LEFT (load rc LEFT +' load dr LEFT) ;;
             assign rc TOP (load rc TOP +' load dr TOP) ;;
             assign rc RIGHT (load rc RIGHT +' load dr RIGHT) ;;
             assign rc BOTTOM (load rc BOTTOM +' load dr BOTTOM)) rc.

(* --------------------------------------------------------------------- *)
(** ** Vector *)
(* --------------------------------------------------------------------- *)

(** [typedef struct VECTOR { FIXED x, y, z; } VECTOR;] *)
Record VECTOR := mkVECTOR { vec_x : Z; vec_y : Z; vec_z : Z }.

Inductive VECTOR_field := VX | VY | VZ.

Definition VECTOR_get (f : VECTOR_field) (v : VECTOR) : Z :=
  match f with VX => vec_x v | VY => vec_y v | VZ => vec_z v end.

Definition VECTOR_set (f : VECTOR_field) (z : Z) (v : VECTOR) : VECTOR :=
  match f with
  | VX => mkVECTOR z (vec_y v) (vec_z v)
  | VY => mkVECTOR (vec_x v) z (vec_z v)
  | VZ => mkVECTOR (vec_x v) (vec_y v) z
  end.

#[export] Instance VECTOR_struct : Struct VECTOR VECTOR_field.
Proof.
  refine {| fget := VECTOR_get; fset := VECTOR_set |}.
  - intros [] z []; reflexivity.
  - intros [] [] z []; simpl; congruence.
Defined.

Notation "e1 *' e2" := (binop fxmul e1 e2)
  (at level 40, left associativity) : stmt_scope.

(** [vd->x = x; vd->y = y; vd->z = z; return vd;] *)
Definition vec_set (vd : ptr) (x y z : Z) :=
  returning (assign vd VX (val x) ;;
             assign vd VY (val y) ;;
             assign vd VZ (val z)) vd.

(** [dot = fxmul(va->x, vb->x); dot += fxmul(va->y, vb->y);
     dot += fxmul(va->z, vb->z); return dot;] *)
Definition vec_dot (va vb : ptr) : heap VECTOR -> option Z :=
  load va VX *' load vb VX +' load va VY *' load vb VY
  +' load va VZ *' load vb VZ.

(** [vd->x = va->x + vb->x; vd->y = va->y + vb->y; vd->z = va->z + vb->z;
     return vd;] *)
Definition vec_add (vd va vb : ptr) :=
  returning (assign vd VX (load va VX +' load vb VX) ;;
             assign vd VY (load va VY +' load vb VY) ;;
             assign vd VZ (load va VZ +' load vb VZ)) vd.

(** As [vec_add], with [-]. *)
Definition vec_sub (vd va vb : ptr) :=
  returning (assign vd VX (load va VX -' load vb VX) ;;
             assign vd VY (load va VY -' load vb VY) ;;
             assign vd VZ (load va VZ -' load vb VZ)) vd.

(** [vd->x = fxmul(va->x, vb->x); ... return vd;] *)
Definition vec_mul (vd va vb : ptr) :=
  returning (assign vd VX (load va VX *' load vb VX) ;;
             assign vd VY (load va VY *' load vb VY) ;;
             assign vd VZ (load va VZ *' load vb VZ)) vd.

(** [vd->x = fxmul(va->x, c); ... return vd;] *)
Definition vec_scale (vd va : ptr) (c : Z) :=
  returning (assign vd VX (load va VX *' val c) ;;
             assign vd VY (load va VY *' val c) ;;
             assign vd VZ (load va VZ *' val c)) vd.

(** [vd->x += vb->x; vd->y += vb->y; vd->z += vb->z; return vd;] *)
Definition vec_add_eq (vd vb : ptr) :=
  returning (assign vd VX (load vd VX +' load vb VX) ;;
             assign vd VY (load vd VY +' load vb VY) ;;
             assign vd VZ (load vd VZ +' load vb VZ)) vd.

(** [vd->x -= vb->x; vd->y -= vb->y; vd->z -= vb->z; return vd;] *)
Definition vec_sub_eq (vd vb : ptr) :=
  returning (assign vd VX (load vd VX -' load vb VX) ;;
             assign vd VY (load vd VY -' load vb VY) ;;
             assign vd VZ (load vd VZ -' load vb VZ)) vd.

(** [vd->x = fxmul(vd->x, vb->x); ... return vd;] *)
Definition vec_mul_eq (vd vb : ptr) :=
  returning (assign vd VX (load vd VX *' load vb VX) ;;
             assign vd VY (load vd VY *' load vb VY) ;;
             assign vd VZ (load vd VZ *' load vb VZ)) vd.

(** [vd->x = fxmul(vd->x, c); ... return vd;] *)
Definition vec_scale_eq (vd : ptr) (c : Z) :=
  returning (assign vd VX (load vd VX *' val c) ;;
             assign vd VY (load vd VY *' val c) ;;
             assign vd VZ (load vd VZ *' val c)) vd.

(** The value a call leaves in the object [p] points to. *)
Definition result_at {T : Type} (p : ptr) (r : option (ptr * heap T))
    : option T :=
  '(_, h) ← r; h !! p.

(* --------------------------------------------------------------------- *)
(** ** Sample heaps *)
(* --------------------------------------------------------------------- *)

(** Three distinct points: [pa = (1, 2)] at address 1, [pb = (3, 4)] at
    address 2 and a destination at address 3. *)
Definition points_1234 : gmap positive POINT :=
  <[1%positive := mkPOINT 1 2]>
    (<[2%positive := mkPOINT 3 4]> (<[3%positive := mkPOINT 0 0]> ∅)).

(** A table that descends from its first entry to its second. *)
Definition descending_lut : list Z := [10; 0; 0].

(** Three [int] variables: the largest [int] at address 1, -2 at address 2
    and 0 at address 3. *)
Definition three_ints : gmap positive Z :=
  <[1%positive := 2147483647]>
    (<[2%positive := -2]> (<[3%positive := 0]> ∅)).

(** One rect, 100 wide and 50 high, at address 1. *)
Definition one_rect : gmap positive RECT :=
  <[1%positive := mkRECT 10 20 110 70]> ∅.

(** A rect at address 1 and, at address 2, the margins (-5, -3, 5, 3). *)
Definition rect_and_margin : gmap positive RECT :=
  <[1%positive := mkRECT 10 20 110 70]>
    (<[2%positive := mkRECT (-5) (-3) 5 3]> ∅).

(** The [FIXED] components of a vector are in range. *)
Definition VECTOR_ok (v : VECTOR) : Prop :=
  is_s32 (vec_x v) /\ is_s32 (vec_y v) /\ is_s32 (vec_z v).

(** The vector (1.5, -2.0, 0.25) at address 1 and the unit vector of the
    x axis at address 2. *)
Definition vector_and_axis : gmap positive VECTOR :=
  <[1%positive := mkVECTOR 384 (-512) 64]>
    (<[2%positive := mkVECTOR 256 0 0]> ∅).

(** Four vectors: (1.5, -2.0, 0.25) at addresses 1 and 3, (2.0, 0.5, -4.0)
    at address 2 and a zero destination at address 4. *)
Definition four_vectors : gmap positive VECTOR :=
  <[1%positive := mkVECTOR 384 (-512) 64]>
    (<[2%positive := mkVECTOR 512 128 (-1024)]>
       (<[3%positive := mkVECTOR 384 (-512) 64]>
          (<[4%positive := mkVECTOR 0 0 0]> ∅))).

(* ===================================================================== *)
(** * Properties of the machine integers *)
(* ===================================================================== *)

Lemma to_s32_id (z : Z) : is_s32 z -> to_s32 z = z.
Proof. unfold is_s32, to_s32. intros Hz. rewrite Z.mod_small; lia. Qed.

Lemma to_u32_id (z : Z) : is_u32 z -> to_u32 z = z.
Proof. unfold is_u32, to_u32. intros Hz. apply Z.mod_small. lia. Qed.

Lemma to_s64_id (z : Z) : is_s64 z -> to_s64 z = z.
Proof. unfold is_s64, to_s64. intros Hz. rewrite Z.mod_small; lia. Qed.

Lemma to_s32_range (z : Z) : is_s32 (to_s32 z).
Proof.
  unfold is_s32, to_s32.
  pose proof (Z.mod_pos_bound (z + 2^31) (2^32)). lia.
Qed.

Lemma to_u32_range (z : Z) : is_u32 (to_u32 z).
Proof. unfold is_u32, to_u32. apply Z.mod_pos_bound. lia. Qed.

(** [to_s32] picks a representative of the class modulo 2^32. *)
Lemma to_s32_congr (a b : Z) :
  a mod 2^32 = b mod 2^32 -> to_s32 a = to_s32 b.
Proof.
  unfold to_s32. intros Hab. f_equal.
  rewrite <- (Zplus_mod_idemp_l a), <- (Zplus_mod_idemp_l b). now rewrite Hab.
Qed.

Lemma to_s32_mod (z : Z) : to_s32 z mod 2^32 = z mod 2^32.
Proof.
  unfold to_s32.
  rewrite Zminus_mod, Zmod_mod, <- Zminus_mod. f_equal. lia.
Qed.

(** An [int] operand may be replaced by anything congruent to it. *)
Lemma int_add_to_s32_l (a b : Z) : int_add (to_s32 a) b = int_add a b.
Proof.
  apply to_s32_congr.
  rewrite <- Zplus_mod_idemp_l, to_s32_mod, Zplus_mod_idemp_l. reflexivity.
Qed.

Lemma int_add_to_s32_r (a b : Z) : int_add a (to_s32 b) = int_add a b.
Proof.
  apply to_s32_congr.
  rewrite <- Zplus_mod_idemp_r, to_s32_mod, Zplus_mod_idemp_r. reflexivity.
Qed.

Lemma int_sub_to_s32_l (a b : Z) : int_sub (to_s32 a) b = int_sub a b.
Proof.
  apply to_s32_congr.
  rewrite <- Zminus_mod_idemp_l, to_s32_mod, Zminus_mod_idemp_l. reflexivity.
Qed.

Lemma int_sub_to_s32_r (a b : Z) : int_sub a (to_s32 b) = int_sub a b.
Proof.
  apply to_s32_congr.
  rewrite <- Zminus_mod_idemp_r, to_s32_mod, Zminus_mod_idemp_r. reflexivity.
Qed.

Lemma shiftr_8_div (z : Z) : Z.shiftr z FIX_SHIFT = z / 256.
Proof. unfold FIX_SHIFT. now rewrite Z.shiftr_div_pow2 by lia. Qed.

Lemma shiftl_8_mul (z : Z) : Z.shiftl z FIX_SHIFT = z * 256.
Proof. unfold FIX_SHIFT. now rewrite Z.shiftl_mul_pow2 by lia. Qed.

Lemma FIX_SCALE_256 : FIX_SCALE = 256.
Proof. reflexivity. Qed.

(** The product of two [FIXED] values fits 64 bits. *)
Lemma s32_mul_is_s64 (a b : Z) : is_s32 a -> is_s32 b -> is_s64 (a * b).
Proof. unfold is_s32, is_s64. intros Ha Hb. nia. Qed.

(* ===================================================================== *)
(** * Fixed-point conversions *)
(* ===================================================================== *)

(** On a non-negative value the unsigned division of [fx2int] is the
    ordinary quotient. *)
Lemma fx2int_nonneg (fx : Z) : is_s32 fx -> 0 <= fx -> fx2int fx = fx / 256.
Proof.
  unfold is_s32. intros Hfx Hpos. unfold fx2int.
  rewrite FIX_SCALE_256, to_u32_id by (unfold is_u32; lia).
  apply to_s32_id. unfold is_s32. Z.div_mod_to_equations. lia.
Qed.

(** On a negative value [fx2int] divides the 32-bit pattern of [fx], which
    is [fx + 2^32], and returns a positive number. *)
Lemma fx2int_neg (fx : Z) :
  is_s32 fx -> fx < 0 -> fx2int fx = (fx + 2^32) / 256.
Proof.
  unfold is_s32. intros Hfx Hneg. unfold fx2int, to_u32.
  rewrite FIX_SCALE_256.
  replace (fx mod 2^32) with (fx + 2^32)
    by (apply Z.mod_unique with (q := -1); lia).
  apply to_s32_id. unfold is_s32. Z.div_mod_to_equations. lia.
Qed.

(** What holds of the two conversions on the code: for every [FIXED]
    value [fx], [fx2uint fx] is the arithmetic right shift [fx >> 8] (the
    floor of [fx / 256], rounding toward negative infinity), returned as a
    [u32]; it equals [fx2int fx], the quotient of [fx] by 256, on every
    non-negative [fx]; and on every negative [fx] the two conversions
    differ, whether [fx2uint]'s result is read as the [u32] it is or as
    the signed shift. *)
Theorem fx2uint_shift_and_fx2int (fx : Z) :
  is_s32 fx ->
  fx2uint fx = to_u32 (Z.shiftr fx 8) /\
  to_s32 (fx2uint fx) = Z.shiftr fx 8 /\
  Z.shiftr fx 8 = fx / 256 /\
  (0 <= fx -> fx2uint fx = fx2int fx /\ fx2int fx = Z.quot fx 256) /\
  (fx < 0 -> fx2uint fx <> fx2int fx /\ to_s32 (fx2uint fx) <> fx2int fx).
Proof.
  intros Hfx. pose proof Hfx as Hr. unfold is_s32 in Hr.
  assert (Hsh : Z.shiftr fx 8 = fx / 256) by apply shiftr_8_div.
  assert (Hq : -2^23 <= fx / 256 < 2^23) by (Z.div_mod_to_equations; lia).
  assert (Hs : to_s32 (fx2uint fx) = fx / 256).
  { unfold fx2uint. rewrite shiftr_8_div.
    transitivity (to_s32 (fx / 256)).
    - apply to_s32_congr. unfold to_u32. apply Zmod_mod.
    - apply to_s32_id. unfold is_s32. lia. }
  split; [reflexivity|]. split; [now rewrite Hsh|]. split; [exact Hsh|].
  split.
  - intros Hpos. rewrite fx2int_nonneg by assumption. split.
    + unfold fx2uint. rewrite shiftr_8_div. apply to_u32_id.
      unfold is_u32. Z.div_mod_to_equations. lia.
    + symmetry. apply Z.quot_div_nonneg; lia.
  - intros Hneg. rewrite Hs, fx2int_neg by assumption.
    unfold fx2uint, to_u32. rewrite shiftr_8_div.
    replace ((fx / 256) mod 2^32) with (fx / 256 + 2^32)
      by (apply Z.mod_unique with (q := -1); Z.div_mod_to_equations; lia).
    split; Z.div_mod_to_equations; lia.
Qed.

Lemma fx2uint_shift_and_fx2int_witness :
  is_s32 (-384) /\
  fx2uint (-384) = 4294967294 /\ to_s32 (fx2uint (-384)) = -2 /\
  fx2uint (-384) <> fx2int (-384).
Proof.
  assert (H : is_s32 (-384)) by (unfold is_s32; lia).
  destruct (fx2uint_shift_and_fx2int (-384) H) as (_ & Hs & _ & _ & Hneg).
  split; [exact H|]. split; [reflexivity|]. split; [exact Hs|].
  apply Hneg. lia.
Defined.

(** On no negative value is [fx2int] the quotient truncated toward zero:
    that quotient is at most 0, and [fx2int] returns at least 2^23. *)
Lemma fx2int_neg_not_quot (fx : Z) :
  is_s32 fx -> fx < 0 ->
  2^23 <= fx2int fx < 2^24 /\ fx2int fx <> Z.quot fx 256.
Proof.
  intros Hfx Hneg. rewrite fx2int_neg by assumption.
  unfold is_s32 in Hfx.
  assert (Hq : Z.quot fx 256 <= 0).
  { rewrite <- (Z.opp_involutive fx), Z.quot_opp_l by lia.
    pose proof (Z.quot_pos (- fx) 256). lia. }
  assert (Hr : 2^23 <= (fx + 2^32) / 256 < 2^24)
    by (Z.div_mod_to_equations; lia).
  split; [exact Hr | lia].
Qed.

(** C6: the two conversions at [fx = -384], the number -1.5.  [fx2uint]
    is the arithmetic right shift [fx >> 8], which is -2 (rounding toward
    negative infinity), returned as the [u32] 4294967294.  The integer
    division of [fx] by 256 truncating toward zero is -1, but [fx2int]
    returns 16777214: it divides the unsigned pattern of [fx]. *)
Theorem fx2int_minus_384 :
  is_s32 (-384) /\
  fx2uint (-384) = to_u32 (Z.shiftr (-384) 8) /\
  to_s32 (fx2uint (-384)) = -2 /\
  Z.quot (-384) 256 = -1 /\
  fx2int (-384) = 16777214.
Proof.
  split; [unfold is_s32; lia|]. repeat split; reflexivity.
Qed.

(** [int2fx] is exact when the scaled value is representable. *)
Lemma int2fx_exact (d : Z) : is_s32 (d * 256) -> int2fx d = d * 256.
Proof. intros Hd. unfold int2fx. rewrite shiftl_8_mul. now apply to_s32_id. Qed.

(** The round trip through [FIXED] returns a non-negative integer. *)
Lemma fx2int_int2fx_nonneg (d : Z) :
  0 <= d -> is_s32 (d * 256) -> fx2int (int2fx d) = d.
Proof.
  intros Hpos Hd. rewrite int2fx_exact by assumption.
  rewrite fx2int_nonneg by (assumption || lia).
  apply Z.div_mul. lia.
Qed.

(** A negative integer comes back 2^24 too large. *)
Lemma fx2int_int2fx_neg (d : Z) :
  d < 0 -> is_s32 (d * 256) -> fx2int (int2fx d) = d + 2^24.
Proof.
  intros Hneg Hd. rewrite int2fx_exact by assumption.
  rewrite fx2int_neg by (assumption || lia).
  replace (d * 256 + 2^32) with ((d + 2^24) * 256) by lia.
  apply Z.div_mul. lia.
Qed.

(** C7: the round trip [fx2int (int2fx d)] at [d = -1], whose scaled value
    -256 is representable: [int2fx] is exact, and [fx2int] returns
    16777215, not -1, because it divides the unsigned pattern of -256. *)
Theorem fx2int_int2fx_minus_one :
  is_s32 (-1 * 256) /\ int2fx (-1) = -256 /\ fx2int (int2fx (-1)) = 16777215.
Proof. split; [unfold is_s32; lia | split; reflexivity]. Qed.

(* ===================================================================== *)
(** * Fixed-point multiplication and division *)
(* ===================================================================== *)

(** [fxmul64] computes the floor of the exact scaled product and then
    keeps its low 32 bits. *)
Lemma fxmul64_floor (fa fb : Z) :
  is_s32 fa -> is_s32 fb -> fxmul64 fa fb = to_s32 (fa * fb / 256).
Proof.
  intros Ha Hb. unfold fxmul64.
  now rewrite to_s64_id, shiftr_8_div by now apply s32_mul_is_s64.
Qed.

(** C3 (amended): for every pair of [FIXED] values, [fxmul64] equals
    [fxmul] when the product [fa * fb] is representable in 32 signed bits;
    and whenever the scaled product [(fa * fb) >> 8] is representable in
    the 32-bit [FIXED] result, in particular for pairs whose 32-bit product
    overflows, [fxmul64] is the floor of the exact scaled product
    [fa * fb / 256] and so within one unit in the last place of it. *)
Theorem fxmul64_refines_fxmul (fa fb : Z) :
  is_s32 fa -> is_s32 fb ->
  (is_s32 (fa * fb) -> fxmul64 fa fb = fxmul fa fb) /\
  (is_s32 (Z.shiftr (fa * fb) 8) ->
     fxmul64 fa fb = Z.shiftr (fa * fb) 8 /\
     0 <= fa * fb - 256 * fxmul64 fa fb < 256 /\
     within_one_ulp (fxmul64 fa fb) fa fb).
Proof.
  intros Ha Hb. rewrite fxmul64_floor by assumption.
  change (Z.shiftr (fa * fb) 8) with (Z.shiftr (fa * fb) FIX_SHIFT).
  rewrite shiftr_8_div. split.
  - intros Hp. unfold fxmul, int_mul.
    rewrite (to_s32_id (fa * fb)), shiftr_8_div by assumption.
    apply to_s32_id. unfold is_s32 in *. Z.div_mod_to_equations. lia.
  - intros Hq. rewrite to_s32_id by assumption.
    assert (0 <= fa * fb - 256 * (fa * fb / 256) < 256)
      by (Z.div_mod_to_equations; lia).
    unfold within_one_ulp. repeat split; lia.
Qed.

Lemma fxmul64_refines_fxmul_witness :
  is_s32 786432 /\ is_s32 524288 /\ ~ is_s32 (786432 * 524288) /\
  fxmul64 786432 524288 = 1610612736 /\
  within_one_ulp (fxmul64 786432 524288) 786432 524288.
Proof.
  assert (Ha : is_s32 786432) by (unfold is_s32; lia).
  assert (Hb : is_s32 524288) by (unfold is_s32; lia).
  assert (Hq : is_s32 (Z.shiftr (786432 * 524288) 8))
    by (vm_compute; split; [discriminate | reflexivity]).
  destruct (fxmul64_refines_fxmul 786432 524288 Ha Hb) as [_ H].
  destruct (H Hq) as (He & _ & Hu).
  split; [exact Ha|]. split; [exact Hb|].
  split; [unfold is_s32; lia|]. split; [exact He | exact Hu].
Defined.

(** C3 (as stated) fails at [fa = fb = 2^24], the fixed-point number
    65536.0: the 32-bit product overflows, the exact scaled product is
    2^40, and [fxmul64] returns its low 32 bits, which are 0. *)
Lemma fxmul64_not_within_one_ulp :
  is_s32 16777216 /\ ~ is_s32 (16777216 * 16777216) /\
  fxmul64 16777216 16777216 = 0 /\
  ~ within_one_ulp (fxmul64 16777216 16777216) 16777216 16777216.
Proof.
  split; [unfold is_s32; lia|]. split; [unfold is_s32; lia|].
  split; [reflexivity|].
  change (fxmul64 16777216 16777216) with 0. unfold within_one_ulp. lia.
Qed.

(** Both divisions are undefined for a zero divisor. *)
Lemma fxdiv_by_zero (fa : Z) : fxdiv fa 0 = None /\ fxdiv64 fa 0 = None.
Proof. split; reflexivity. Qed.

(** With a non-negative dividend and a positive divisor the unsigned
    division of [fxdiv] and the signed 64-bit division of [fxdiv64] are the
    same quotient. *)
Lemma fxdiv64_fxdiv_nonneg (fa fb : Z) :
  0 <= fa -> is_s32 (fa * 256) -> is_s32 fb -> 0 < fb ->
  fxdiv64 fa fb = fxdiv fa fb /\ fxdiv fa fb = Some (fa * 256 / fb).
Proof.
  unfold is_s32. intros Ha Hs Hb Hpos. unfold fxdiv64, fxdiv.
  destruct (decide (fb = 0)) as [->|_]; [lia|].
  rewrite shiftl_8_mul, FIX_SCALE_256.
  rewrite (to_s64_id (fa * 256)) by (unfold is_s64; lia).
  rewrite (to_u32_id fa), (to_u32_id (fa * 256)), (to_u32_id fb)
    by (unfold is_u32; lia).
  rewrite Z.quot_div_nonneg by lia. split; [reflexivity|].
  f_equal. apply to_s32_id. unfold is_s32.
  Z.div_mod_to_equations. nia.
Qed.

(** C5: [fxdiv] and [fxdiv64] at [fa = -256] (the number -1.0) and
    [fb = 256] (the number 1.0), where [fa * 256] is representable:
    [fxdiv64] returns -256 (that is -1.0); [fxdiv] divides the unsigned
    patterns and returns 16776960. *)
Theorem fxdiv_fxdiv64_minus_one :
  is_s32 (-256 * 256) /\
  fxdiv (-256) 256 = Some 16776960 /\ fxdiv64 (-256) 256 = Some (-256).
Proof. split; [unfold is_s32; lia | split; reflexivity]. Qed.

(* ===================================================================== *)
(** * Reciprocal multiplication *)
(* ===================================================================== *)

Lemma int_shl_1 (fp : Z) :
  0 <= fp -> is_s32 (2^fp) -> int_shl 1 fp = Some (2^fp).
Proof.
  intros Hfp Hn. unfold int_shl.
  assert (fp < 32).
  { destruct (Z_lt_ge_dec fp 32) as [|Hge]; [assumption|].
    pose proof (Z.pow_le_mono_r 2 32 fp). unfold is_s32 in Hn. lia. }
  rewrite decide_True by lia.
  now rewrite Z.shiftl_1_l, to_s32_id.
Qed.

Lemma int_div_pos (p a : Z) : 0 <= p -> 0 < a -> int_div p a = Some (p / a).
Proof.
  intros Hp Ha. unfold int_div.
  rewrite decide_False, decide_False by lia.
  now rewrite Z.quot_div_nonneg.
Qed.

(** The rounded-up reciprocal [m = (n + a - 1) / a] of the macro
    documentation, [n = 2^fp]. *)
Lemma FX_RECIPROCAL_value (a fp : Z) :
  0 < a -> 0 <= fp -> is_s32 (2^fp + a - 1) ->
  FX_RECIPROCAL a fp = Some ((2^fp + a - 1) / a).
Proof.
  intros Ha Hfp Hn. pose proof (Z.pow_pos_nonneg 2 fp).
  unfold FX_RECIPROCAL.
  rewrite int_shl_1 by (unfold is_s32 in *; lia). simpl.
  unfold int_add. rewrite int_sub_to_s32_l. unfold int_sub.
  rewrite to_s32_id by assumption.
  apply int_div_pos; lia.
Qed.

(** What [FX_RECIMUL] computes when nothing overflows: the quotient of
    [x * (n + a - 1)] by [a * n]. *)
Lemma FX_RECIMUL_value (x a fp : Z) :
  0 < a -> 0 <= fp -> 0 <= x ->
  is_s32 (2^fp + a - 1) -> is_s32 (x * (2^fp + a - 1)) ->
  FX_RECIMUL x a fp = Some (x * (2^fp + a - 1) / (a * 2^fp)).
Proof.
  intros Ha Hfp Hx Hn Hp. pose proof (Z.pow_pos_nonneg 2 fp).
  assert (Hlt : fp < 32).
  { destruct (Z_lt_ge_dec fp 32) as [|Hge]; [assumption|].
    pose proof (Z.pow_le_mono_r 2 32 fp). unfold is_s32 in Hn. lia. }
  unfold FX_RECIMUL.
  rewrite int_shl_1 by (unfold is_s32 in *; lia). simpl.
  unfold int_add. rewrite int_sub_to_s32_l. unfold int_sub, int_mul.
  rewrite (to_s32_id (2^fp + a - 1)), to_s32_id by assumption.
  rewrite int_div_pos by nia. simpl.
  unfold int_shr. rewrite decide_True by lia.
  now rewrite Z.shiftr_div_pow2, Z.div_div by lia.
Qed.

(** The rule "minimum n for known x: n > x * (a - 1)" of the macro's
    documentation is the one under which [FX_RECIMUL] is the quotient. *)
Lemma FX_RECIMUL_exact (x a fp : Z) :
  0 < a -> 0 <= fp -> 0 <= x ->
  is_s32 (2^fp + a - 1) -> is_s32 (x * (2^fp + a - 1)) ->
  x * (a - 1) < 2^fp ->
  FX_RECIMUL x a fp = Some (x / a).
Proof.
  intros Ha Hfp Hx Hn Hp Hsafe. pose proof (Z.pow_pos_nonneg 2 fp).
  rewrite FX_RECIMUL_value by assumption. f_equal.
  symmetry. apply Z.div_unique_pos
    with (r := x * (2^fp + a - 1) - a * 2^fp * (x / a)); [|lia].
  set (n := 2^fp) in *. Z.div_mod_to_equations. nia.
Qed.

(** The rule "maximum safe numerator x: x < n / (m * a - n)" is right for
    the division the documentation describes, the multiplication of [x] by
    the reciprocal [m = FX_RECIPROCAL a fp] followed by the shift. *)
Lemma reciprocal_multiplication_exact (x a fp m : Z) :
  0 < a -> 0 <= fp -> 0 <= x ->
  is_s32 (2^fp + a - 1) ->
  FX_RECIPROCAL a fp = Some m ->
  is_s32 (x * m) ->
  x < 2^fp / (m * a - 2^fp) ->
  int_shr (int_mul x m) fp = Some (x / a).
Proof.
  intros Ha Hfp Hx Hn Hm Hp Hsafe. pose proof (Z.pow_pos_nonneg 2 fp).
  assert (Hlt : fp < 32).
  { destruct (Z_lt_ge_dec fp 32) as [|Hge]; [assumption|].
    pose proof (Z.pow_le_mono_r 2 32 fp). unfold is_s32 in Hn. lia. }
  rewrite FX_RECIPROCAL_value in Hm by assumption.
  injection Hm as Hm.
  unfold int_shr, int_mul. rewrite decide_True by lia.
  rewrite to_s32_id, Z.shiftr_div_pow2 by (assumption || lia). f_equal.
  set (n := 2^fp) in *.
  assert (He : 0 <= m * a - n < a) by (subst m; Z.div_mod_to_equations; nia).
  assert (Hxe : x * (m * a - n) < n).
  { destruct (Z.eq_dec (m * a - n) 0) as [Hz|Hnz].
    - rewrite Hz in Hsafe. rewrite Z.div_0_r in Hsafe. lia.
    - clear Hm. Z.div_mod_to_equations. nia. }
  symmetry. apply Z.div_unique_pos with (r := x * m - n * (x / a)); [|lia].
  clear Hm Hsafe Hp Hn. Z.div_mod_to_equations. nia.
Qed.

(** C2: [FX_RECIMUL] at [x = 5], [a = 3], [fp = 3].  The reciprocal is
    [m = 3], the documented bound [x < 2^fp / (m * a - 2^fp) = 8] holds and
    no intermediate leaves the [int] range, but the macro returns 2 while
    the quotient [5 / 3] is 1: it divides [5 * 10] by 3 before shifting. *)
Theorem FX_RECIMUL_5_3_3 :
  FX_RECIPROCAL 3 3 = Some 3 /\
  5 < 2^3 / (3 * 3 - 2^3) /\
  is_s32 (5 * (2^3 + 3 - 1)) /\
  FX_RECIMUL 5 3 3 = Some 2 /\
  5 / 3 = 1.
Proof.
  split; [reflexivity|]. split; [reflexivity|].
  split; [unfold is_s32; lia|]. split; reflexivity.
Qed.

(* ===================================================================== *)
(** * Sine and cosine look-ups *)
(* ===================================================================== *)

Lemma land_0x1FF (z : Z) : Z.land z 0x1FF = z mod 512.
Proof. change 0x1FF with (Z.ones 9). now rewrite Z.land_ones by lia. Qed.

Lemma shiftr_7_div (z : Z) : Z.shiftr z 7 = z / 128.
Proof. now rewrite Z.shiftr_div_pow2 by lia. Qed.

Lemma lu_sin_index_div (theta : Z) :
  lu_sin_index theta = (theta / 128) mod 512.
Proof. unfold lu_sin_index. now rewrite land_0x1FF, shiftr_7_div. Qed.

Lemma lu_cos_index_div (theta : Z) :
  lu_cos_index theta = ((theta / 128 + 128) mod 2^32) mod 512.
Proof. unfold lu_cos_index, to_u32. now rewrite land_0x1FF, shiftr_7_div. Qed.

Lemma lu_sin_index_range (theta : Z) : 0 <= lu_sin_index theta <= 511.
Proof. rewrite lu_sin_index_div. Z.div_mod_to_equations. lia. Qed.

Lemma lu_cos_index_range (theta : Z) : 0 <= lu_cos_index theta <= 511.
Proof. rewrite lu_cos_index_div. Z.div_mod_to_equations. lia. Qed.

(** One full turn later the sine index is the same. *)
Lemma lu_sin_index_turn (theta : Z) :
  lu_sin_index (to_u32 (theta + 65536)) = lu_sin_index theta.
Proof.
  rewrite !lu_sin_index_div. unfold to_u32. Z.div_mod_to_equations. lia.
Qed.

(** The cosine index is the sine index a quarter turn later. *)
Lemma lu_cos_index_quarter (theta : Z) :
  lu_cos_index theta = lu_sin_index (to_u32 (theta + 16384)).
Proof.
  rewrite lu_cos_index_div, lu_sin_index_div. unfold to_u32.
  Z.div_mod_to_equations. lia.
Qed.

(** Only the angle modulo one turn matters. *)
Lemma lu_index_wrap (theta : Z) :
  lu_sin_index theta = lu_sin_index (theta mod 65536) /\
  lu_cos_index theta = lu_cos_index (theta mod 65536).
Proof.
  rewrite !lu_sin_index_div, !lu_cos_index_div.
  split; Z.div_mod_to_equations; lia.
Qed.

Section LutProps.
Variable sin_lut : list Z.
Hypothesis sin_lut_size : length sin_lut = SIN_LUT_SIZE.

(** Every index up to 511 has an entry. *)
Lemma sin_lut_entry (i : Z) :
  0 <= i <= 511 -> exists v, sin_lut !! Z.to_nat i = Some v.
Proof using sin_lut_size.
  intros Hi. apply lookup_lt_is_Some_2.
  rewrite sin_lut_size. unfold SIN_LUT_SIZE. lia.
Qed.

(** C4: for every unsigned 32-bit angle, the sine look-up returns a
    value, and returns the same value one full turn (65536) later; the
    cosine look-up returns a value, which is the sine look-up's a quarter
    turn (16384) later.  The additions are those of [uint]. *)
Theorem lu_sin_period_lu_cos_shift (theta : Z) :
  is_u32 theta ->
  exists s c : Z,
    lu_sin sin_lut theta = Some s /\
    lu_sin sin_lut (to_u32 (theta + 65536)) = Some s /\
    lu_cos sin_lut theta = Some c /\
    lu_sin sin_lut (to_u32 (theta + 16384)) = Some c.
Proof using sin_lut_size.
  intros _.
  destruct (sin_lut_entry _ (lu_sin_index_range theta)) as [s Hs].
  destruct (sin_lut_entry _ (lu_cos_index_range theta)) as [c Hc].
  exists (to_s32 s), (to_s32 c). unfold lu_sin, lu_cos.
  rewrite lu_sin_index_turn, <- lu_cos_index_quarter, Hs, Hc.
  repeat split.
Qed.

(** C8: for every unsigned 32-bit angle, the indices computed by
    [lu_sin] and [lu_cos] lie in [0, 511], below the table's 514 entries,
    so both look-ups return a value; and an angle beyond one turn reads
    the same entries as the angle reduced modulo 65536. *)
Theorem lu_index_in_table (theta : Z) :
  is_u32 theta ->
  0 <= lu_sin_index theta <= 511 /\
  0 <= lu_cos_index theta <= 511 /\
  (Z.to_nat (lu_sin_index theta) < length sin_lut)%nat /\
  (Z.to_nat (lu_cos_index theta) < length sin_lut)%nat /\
  is_Some (lu_sin sin_lut theta) /\
  is_Some (lu_cos sin_lut theta) /\
  lu_sin sin_lut theta = lu_sin sin_lut (theta mod 65536) /\
  lu_cos sin_lut theta = lu_cos sin_lut (theta mod 65536).
Proof using sin_lut_size.
  intros _.
  pose proof (lu_sin_index_range theta) as Hs.
  pose proof (lu_cos_index_range theta) as Hc.
  destruct (sin_lut_entry _ Hs) as [s Hs'].
  destruct (sin_lut_entry _ Hc) as [c Hc'].
  destruct (lu_index_wrap theta) as [Hws Hwc].
  split; [exact Hs|]. split; [exact Hc|].
  rewrite sin_lut_size. unfold SIN_LUT_SIZE.
  split; [lia|]. split; [lia|].
  unfold lu_sin, lu_cos. rewrite <- Hws, <- Hwc, Hs', Hc'.
  repeat split; eexists; reflexivity.
Qed.
End LutProps.

Lemma lu_sin_period_lu_cos_shift_witness :
  exists s c : Z,
    lu_sin index_lut 4294967295 = Some s /\
    lu_sin index_lut (to_u32 (4294967295 + 65536)) = Some s /\
    lu_cos index_lut 4294967295 = Some c /\
    lu_sin index_lut (to_u32 (4294967295 + 16384)) = Some c.
Proof.
  apply (lu_sin_period_lu_cos_shift index_lut).
  - reflexivity.
  - unfold is_u32. lia.
Defined.

Lemma lu_index_in_table_witness :
  is_Some (lu_sin index_lut 4294967295) /\
  is_Some (lu_cos index_lut 4294967295).
Proof.
  assert (Hsize : length index_lut = SIN_LUT_SIZE) by reflexivity.
  assert (Htheta : is_u32 4294967295) by (unfold is_u32; lia).
  destruct (lu_index_in_table index_lut Hsize 4294967295 Htheta)
    as (_ & _ & _ & _ & Hs & Hc & _).
  split; [exact Hs | exact Hc].
Defined.

(* ===================================================================== *)
(** * Loads, stores and assignments *)
(* ===================================================================== *)

Section StatementProps.
Context {T F : Type} `{!Struct T F}.
Implicit Types (h : gmap positive T) (p q : positive) (t : T) (f g : F).

Lemma load_Some h p t f : h !! p = Some t -> load p f h = Some (fget f t).
Proof. intros Hp. unfold load. now rewrite Hp. Qed.

Lemma load_insert_eq h p t f : load p f (<[p := t]> h) = Some (fget f t).
Proof. unfold load. now rewrite lookup_insert_eq. Qed.

Lemma load_insert_ne h p q t f :
  p <> q -> load q f (<[p := t]> h) = load q f h.
Proof. intros Hne. unfold load. now rewrite lookup_insert_ne. Qed.

(** Overwriting an object with one that has the same field [g] does not
    change what any pointer, alias or not, reads in [g]. *)
Lemma load_insert_same h p q t t' g :
  h !! p = Some t -> fget g t' = fget g t ->
  load q g (<[p := t']> h) = load q g h.
Proof.
  intros Hp Hg. destruct (decide (p = q)) as [<-|Hne].
  - rewrite load_insert_eq, (load_Some _ _ _ _ Hp). now f_equal.
  - now apply load_insert_ne.
Qed.

Lemma binop_Some (op : Z -> Z -> Z) (e1 e2 : gmap positive T -> option Z)
    h a b :
  e1 h = Some a -> e2 h = Some b -> binop op e1 e2 h = Some (op a b).
Proof. intros H1 H2. unfold binop. now rewrite H1, H2. Qed.

(** The first assignment to an object. *)
Lemma assign_Some h p t f e z :
  h !! p = Some t -> e h = Some z ->
  assign p f e h = Some (<[p := fset f z t]> h).
Proof.
  intros Hp He. unfold assign, store. rewrite He. simpl. now rewrite Hp.
Qed.

(** A later assignment to the same object. *)
Lemma assign_insert h p t f e z :
  e (<[p := t]> h) = Some z ->
  assign p f e (<[p := t]> h) = Some (<[p := fset f z t]> h).
Proof.
  intros He. unfold assign, store. rewrite He. simpl.
  rewrite lookup_insert_eq. simpl. now rewrite insert_insert_eq.
Qed.
End StatementProps.

(** Evaluation of a right-hand side in a heap where the destination, which
    held [Hd]'s value, has had other fields overwritten. *)
Ltac eval_rhs Hd :=
  repeat first
    [ apply binop_Some
    | apply load_Some; eassumption
    | rewrite (load_insert_same _ _ _ _ _ _ Hd) by reflexivity;
      apply load_Some; eassumption
    | reflexivity ].

(** Execution of a body that assigns the fields of one destination. *)
Ltac run_body Hd :=
  unfold returning, stmt_seq;
  erewrite assign_Some; [simpl | exact Hd | eval_rhs Hd];
  repeat (erewrite assign_insert; [simpl | eval_rhs Hd]);
  reflexivity.

(* ===================================================================== *)
(** * Points *)
(* ===================================================================== *)

(** [pt_add_eq] and [pt_sub_eq] add and subtract [pb->y] in both
    components, whatever aliases what. *)
Lemma pt_add_eq_spec (h : gmap positive POINT) (pd pb : positive)
    (d b : POINT) :
  h !! pd = Some d -> h !! pb = Some b ->
  pt_add_eq pd pb h =
    Some (pd, <[pd := mkPOINT (int_add (pt_x d) (pt_y b))
                              (int_add (pt_y d) (pt_y b))]> h).
Proof. intros Hd Hb. unfold pt_add_eq. run_body Hd. Qed.

Lemma pt_sub_eq_spec (h : gmap positive POINT) (pd pb : positive)
    (d b : POINT) :
  h !! pd = Some d -> h !! pb = Some b ->
  pt_sub_eq pd pb h =
    Some (pd, <[pd := mkPOINT (int_sub (pt_x d) (pt_y b))
                              (int_sub (pt_y d) (pt_y b))]> h).
Proof. intros Hd Hb. unfold pt_sub_eq. run_body Hd. Qed.

(** [pt_add] and [pt_sub] into a destination that is not [pa]: the second
    component is computed from [pa->x]. *)
Lemma pt_add_spec (h : gmap positive POINT) (pd pa pb : positive)
    (d a b : POINT) :
  h !! pd = Some d -> h !! pa = Some a -> h !! pb = Some b -> pd <> pa ->
  pt_add pd pa pb h =
    Some (pd, <[pd := mkPOINT (int_add (pt_x a) (pt_x b))
                              (int_add (pt_x a) (pt_y b))]> h).
Proof.
  intros Hd Ha Hb Hne. unfold pt_add, returning, stmt_seq.
  erewrite assign_Some; [simpl | exact Hd | eval_rhs Hd].
  erewrite assign_insert; [simpl; reflexivity|].
  apply binop_Some.
  - rewrite load_insert_ne by assumption. exact (load_Some _ _ _ PX Ha).
  - rewrite (load_insert_same _ _ _ _ _ _ Hd) by reflexivity.
    exact (load_Some _ _ _ PY Hb).
Qed.

Lemma pt_sub_spec (h : gmap positive POINT) (pd pa pb : positive)
    (d a b : POINT) :
  h !! pd = Some d -> h !! pa = Some a -> h !! pb = Some b -> pd <> pa ->
  pt_sub pd pa pb h =
    Some (pd, <[pd := mkPOINT (int_sub (pt_x a) (pt_x b))
                              (int_sub (pt_x a) (pt_y b))]> h).
Proof.
  intros Hd Ha Hb Hne. unfold pt_sub, returning, stmt_seq.
  erewrite assign_Some; [simpl | exact Hd | eval_rhs Hd].
  erewrite assign_insert; [simpl; reflexivity|].
  apply binop_Some.
  - rewrite load_insert_ne by assumption. exact (load_Some _ _ _ PX Ha).
  - rewrite (load_insert_same _ _ _ _ _ _ Hd) by reflexivity.
    exact (load_Some _ _ _ PY Hb).
Qed.

(** C1: the four point operations on [pa = (1, 2)] and [pb = (3, 4)].
    [pt_add] leaves (4, 5) in the destination, not (4, 6), and [pt_sub]
    leaves (-2, -3), not (-2, -2): the second component is computed from
    [pa->x].  [pt_add_eq] turns (1, 2) into (5, 6), not (4, 6), and
    [pt_sub_eq] turns it into (-3, -2), not (-2, -2): the first component
    is computed from [pb->y]. *)
Theorem pt_add_sub_components :
  result_at 3%positive (pt_add 3%positive 1%positive 2%positive points_1234)
    = Some (mkPOINT 4 5) /\
  result_at 3%positive (pt_sub 3%positive 1%positive 2%positive points_1234)
    = Some (mkPOINT (-2) (-3)) /\
  result_at 1%positive (pt_add_eq 1%positive 2%positive points_1234)
    = Some (mkPOINT 5 6) /\
  result_at 1%positive (pt_sub_eq 1%positive 2%positive points_1234)
    = Some (mkPOINT (-3) (-2)).
Proof. repeat split; vm_compute; reflexivity. Qed.

(* ===================================================================== *)
(** * Rectangles *)
(* ===================================================================== *)

(** Moving the right edge by [x - left] and measuring from [x] gives the
    old width, also when an intermediate value wraps around. *)
Lemma int_sub_add_sub (a x l : Z) :
  int_sub (int_add a (int_sub x l)) x = int_sub a l.
Proof.
  unfold int_sub at 2. rewrite int_add_to_s32_r.
  unfold int_add. rewrite int_sub_to_s32_l.
  unfold int_sub. f_equal. lia.
Qed.

(** C9: for every rect [rc] and integers [x], [y], [rc_set_pos] returns
    [rc]; afterwards [rc->left] is [x] and [rc->top] is [y], [rc_width] and
    [rc_height] return what they returned before the call, and no other
    object has changed. *)
Theorem rc_set_pos_moves (h : gmap positive RECT) (rc : positive) (r : RECT)
    (x y : Z) :
  h !! rc = Some r ->
  exists h' : gmap positive RECT,
    rc_set_pos rc x y h = Some (rc, h') /\
    load rc LEFT h' = Some x /\
    load rc TOP h' = Some y /\
    rc_width rc h' = rc_width rc h /\
    rc_height rc h' = rc_height rc h /\
    forall q : positive, q <> rc -> h' !! q = h !! q.
Proof.
  intros Hr. eexists. split.
  { unfold rc_set_pos. run_body Hr. }
  simpl. unfold rc_width, rc_height.
  rewrite !(binop_Some _ _ _ _ _ _ (load_insert_eq _ _ _ _)
                                   (load_insert_eq _ _ _ _)).
  rewrite !(binop_Some _ _ _ _ _ _ (load_Some _ _ _ _ Hr)
                                   (load_Some _ _ _ _ Hr)).
  rewrite !load_insert_eq. simpl.
  split; [reflexivity|]. split; [reflexivity|].
  rewrite !int_sub_add_sub.
  split; [reflexivity|]. split; [reflexivity|].
  intros q Hq. now rewrite lookup_insert_ne.
Qed.

Lemma rc_set_pos_moves_witness :
  exists h' : gmap positive RECT,
    rc_set_pos 1%positive (-5) 7 one_rect = Some (1%positive, h') /\
    load 1%positive LEFT h' = Some (-5) /\
    load 1%positive TOP h' = Some 7 /\
    rc_width 1%positive h' = rc_width 1%positive one_rect /\
    rc_height 1%positive h' = rc_height 1%positive one_rect /\
    forall q : positive, q <> 1%positive -> h' !! q = one_rect !! q.
Proof.
  apply (rc_set_pos_moves one_rect 1%positive (mkRECT 10 20 110 70)).
  reflexivity.
Defined.

(* ===================================================================== *)
(** * Vectors *)
(* ===================================================================== *)

(** What each vector operation leaves in its destination.  The operands
    may alias each other and the destination: every component is computed
    from the same component of the operands, before it is overwritten. *)
Section VectorCalls.
Variable h : gmap positive VECTOR.
Variables vd va vb : positive.
Variables d a b : VECTOR.
Hypothesis Hd : h !! vd = Some d.
Hypothesis Ha : h !! va = Some a.
Hypothesis Hb : h !! vb = Some b.

Lemma vec_add_spec :
  vec_add vd va vb h =
    Some (vd, <[vd := mkVECTOR (int_add (vec_x a) (vec_x b))
                               (int_add (vec_y a) (vec_y b))
                               (int_add (vec_z a) (vec_z b))]> h).
Proof using Hd Ha Hb. unfold vec_add. run_body Hd. Qed.

Lemma vec_sub_spec :
  vec_sub vd va vb h =
    Some (vd, <[vd := mkVECTOR (int_sub (vec_x a) (vec_x b))
                               (int_sub (vec_y a) (vec_y b))
                               (int_sub (vec_z a) (vec_z b))]> h).
Proof using Hd Ha Hb. unfold vec_sub. run_body Hd. Qed.

Lemma vec_mul_spec :
  vec_mul vd va vb h =
    Some (vd, <[vd := mkVECTOR (fxmul (vec_x a) (vec_x b))
                               (fxmul (vec_y a) (vec_y b))
                               (fxmul (vec_z a) (vec_z b))]> h).
Proof using Hd Ha Hb. unfold vec_mul. run_body Hd. Qed.

Lemma vec_scale_spec (c : Z) :
  vec_scale vd va c h =
    Some (vd, <[vd := mkVECTOR (fxmul (vec_x a) c)
                               (fxmul (vec_y a) c)
                               (fxmul (vec_z a) c)]> h).
Proof using Hd Ha. unfold vec_scale. run_body Hd. Qed.

Lemma vec_add_eq_spec :
  vec_add_eq vd vb h =
    Some (vd, <[vd := mkVECTOR (int_add (vec_x d) (vec_x b))
                               (int_add (vec_y d) (vec_y b))
                               (int_add (vec_z d) (vec_z b))]> h).
Proof using Hd Hb. unfold vec_add_eq. run_body Hd. Qed.

Lemma vec_sub_eq_spec :
  vec_sub_eq vd vb h =
    Some (vd, <[vd := mkVECTOR (int_sub (vec_x d) (vec_x b))
                               (int_sub (vec_y d) (vec_y b))
                               (int_sub (vec_z d) (vec_z b))]> h).
Proof using Hd Hb. unfold vec_sub_eq. run_body Hd. Qed.

Lemma vec_mul_eq_spec :
  vec_mul_eq vd vb h =
    Some (vd, <[vd := mkVECTOR (fxmul (vec_x d) (vec_x b))
                               (fxmul (vec_y d) (vec_y b))
                               (fxmul (vec_z d) (vec_z b))]> h).
Proof using Hd Hb. unfold vec_mul_eq. run_body Hd. Qed.

Lemma vec_scale_eq_spec (c : Z) :
  vec_scale_eq vd c h =
    Some (vd, <[vd := mkVECTOR (fxmul (vec_x d) c)
                               (fxmul (vec_y d) c)
                               (fxmul (vec_z d) c)]> h).
Proof using Hd. unfold vec_scale_eq. run_body Hd. Qed.
End VectorCalls.

(** An in-place variant is the body of the pure variant with the
    destination as first operand, also when a pointer is dangling. *)
Lemma vec_eq_bodies (h : gmap positive VECTOR) (vd vb : positive) (c : Z) :
  vec_add_eq vd vb h = vec_add vd vd vb h /\
  vec_sub_eq vd vb h = vec_sub vd vd vb h /\
  vec_mul_eq vd vb h = vec_mul vd vd vb h /\
  vec_scale_eq vd c h = vec_scale vd vd c h.
Proof. repeat split. Qed.

(** C10: let [vd] hold [d] and [vb] hold [b] (possibly the same object),
    let [va] hold a copy of [vd]'s prior value [d] ([va] may be [vd]
    itself) and let [vt] be any destination.  Each in-place variant leaves
    in [vd], and the corresponding pure variant called on [va] and the
    operand leaves in [vt], one and the same vector [v]; neither changes
    any other object. *)
Theorem vec_eq_variants_refine (h : gmap positive VECTOR)
    (vd vb va vt : positive) (d b t : VECTOR) (c : Z) :
  h !! vd = Some d -> h !! vb = Some b ->
  h !! va = Some d -> h !! vt = Some t ->
  (exists v, vec_add_eq vd vb h = Some (vd, <[vd := v]> h) /\
             vec_add vt va vb h = Some (vt, <[vt := v]> h)) /\
  (exists v, vec_sub_eq vd vb h = Some (vd, <[vd := v]> h) /\
             vec_sub vt va vb h = Some (vt, <[vt := v]> h)) /\
  (exists v, vec_mul_eq vd vb h = Some (vd, <[vd := v]> h) /\
             vec_mul vt va vb h = Some (vt, <[vt := v]> h)) /\
  (exists v, vec_scale_eq vd c h = Some (vd, <[vd := v]> h) /\
             vec_scale vt va c h = Some (vt, <[vt := v]> h)).
Proof.
  intros Hd Hb Ha Ht.
  split; [|split; [|split]]; eexists; split.
  - eapply vec_add_eq_spec; eassumption.
  - eapply vec_add_spec; eassumption.
  - eapply vec_sub_eq_spec; eassumption.
  - eapply vec_sub_spec; eassumption.
  - eapply vec_mul_eq_spec; eassumption.
  - eapply vec_mul_spec; eassumption.
  - eapply vec_scale_eq_spec; eassumption.
  - eapply vec_scale_spec; eassumption.
Qed.

Lemma vec_eq_variants_refine_witness :
  (exists v,
     vec_add_eq 1%positive 2%positive four_vectors
       = Some (1%positive, <[1%positive := v]> four_vectors) /\
     vec_add 4%positive 3%positive 2%positive four_vectors
       = Some (4%positive, <[4%positive := v]> four_vectors)) /\
  (exists v,
     vec_mul_eq 1%positive 2%positive four_vectors
       = Some (1%positive, <[1%positive := v]> four_vectors) /\
     vec_mul 4%positive 3%positive 2%positive four_vectors
       = Some (4%positive, <[4%positive := v]> four_vectors)).
Proof.
  destruct (vec_eq_variants_refine four_vectors
              1%positive 2%positive 3%positive 4%positive
              (mkVECTOR 384 (-512) 64) (mkVECTOR 512 128 (-1024))
              (mkVECTOR 0 0 0) 512
              eq_refl eq_refl eq_refl eq_refl)
    as (Hadd & _ & Hmul & _).
  split; [exact Hadd | exact Hmul].
Defined.

(* ===================================================================== *)
(** * Signs, ranges and boundary responses *)
(* ===================================================================== *)

(** Unfolding of the [int] operations into linear arithmetic with
    quotients and remainders. *)
Ltac int_arith :=
  unfold int_add, int_sub, int_mul, int_neg, to_s32, to_u32, is_s32, is_u32
    in *;
  Z.div_mod_to_equations; lia.

Lemma shiftr_31_sign (x : Z) :
  is_s32 x -> Z.shiftr x 31 = if decide (x < 0) then -1 else 0.
Proof.
  intros Hx. rewrite Z.shiftr_div_pow2 by lia.
  destruct (decide (x < 0)); unfold is_s32 in Hx;
    Z.div_mod_to_equations; lia.
Qed.

(** X1: for every [int] other than the most negative one, whose negation
    overflows, the shift-based [sgn3] returns the tri-state sign that the
    macro [SGN3] computes by comparisons: 1, 0 or -1. *)
Theorem sgn3_is_SGN3 (x : Z) :
  is_s32 x -> x <> -2^31 ->
  sgn3 x = SGN3 x /\
  (0 < x -> sgn3 x = 1) /\ (x = 0 -> sgn3 x = 0) /\ (x < 0 -> sgn3 x = -1).
Proof.
  intros Hx Hmin.
  assert (Hn : is_s32 (int_neg x)) by apply to_s32_range.
  assert (Hv : int_neg x = - x).
  { unfold int_neg. apply to_s32_id. unfold is_s32 in *. lia. }
  assert (H3 : sgn3 x = SGN3 x).
  { unfold sgn3, SGN3. rewrite !shiftr_31_sign by assumption. rewrite Hv.
    repeat case_decide; try lia; reflexivity. }
  split; [exact H3|]. rewrite H3. unfold SGN3.
  repeat split; intros; repeat case_decide; lia.
Qed.

Lemma sgn3_is_SGN3_witness : sgn3 (-7) = SGN3 (-7) /\ sgn3 (-7) = -1.
Proof.
  assert (Hx : is_s32 (-7)) by (unfold is_s32; lia).
  assert (Hm : -7 <> -2^31) by lia.
  destruct (sgn3_is_SGN3 (-7) Hx Hm) as (H3 & _ & _ & Hneg).
  split; [exact H3 | apply Hneg; lia].
Defined.

(** X2: away from the most negative [int], [ABS] is the absolute value,
    and [sgn] and [ABS] decompose a number: [sgn x * ABS x = x]. *)
Theorem sgn_ABS_decompose (x : Z) :
  is_s32 x -> x <> -2^31 ->
  ABS x = Z.abs x /\ 0 <= ABS x /\ sgn x * ABS x = x.
Proof.
  intros Hx Hmin. unfold ABS, sgn.
  destruct (decide (x >= 0)).
  - lia.
  - assert (Hv : int_neg x = - x).
    { unfold int_neg. apply to_s32_id. unfold is_s32 in *. lia. }
    rewrite Hv. lia.
Qed.

Lemma sgn_ABS_decompose_witness :
  ABS (-7) = Z.abs (-7) /\ 0 <= ABS (-7) /\ sgn (-7) * ABS (-7) = -7.
Proof.
  apply (sgn_ABS_decompose (-7)).
  - unfold is_s32. lia.
  - lia.
Defined.

(** X3: the single unsigned comparison of [in_range] is the range check of
    the macro [IN_RANGE] whenever [min <= max]; with the bounds inverted,
    [max < min], the macro accepts nothing while [in_range] accepts exactly
    the points outside [[max, min)]. *)
Theorem in_range_IN_RANGE (x min max : Z) :
  is_s32 x -> is_s32 min -> is_s32 max ->
  (min <= max -> in_range x min max = IN_RANGE x min max) /\
  (max < min ->
     IN_RANGE x min max = false /\
     in_range x min max = negb (IN_RANGE x max min)).
Proof.
  intros Hx Hlo Hhi. unfold in_range, IN_RANGE. split; [intros Hle | intros Hlt].
  - repeat case_bool_decide; simpl; try reflexivity; exfalso; int_arith.
  - split; repeat case_bool_decide; simpl; try reflexivity; exfalso; int_arith.
Qed.

Lemma in_range_IN_RANGE_witness :
  in_range 5 0 10 = IN_RANGE 5 0 10 /\
  in_range 12 10 0 = negb (IN_RANGE 12 0 10).
Proof.
  assert (H5 : is_s32 5) by (unfold is_s32; lia).
  assert (H12 : is_s32 12) by (unfold is_s32; lia).
  assert (H0 : is_s32 0) by (unfold is_s32; lia).
  assert (H10 : is_s32 10) by (unfold is_s32; lia).
  split.
  - apply (proj1 (in_range_IN_RANGE 5 0 10 H5 H0 H10)). lia.
  - apply (proj2 (in_range_IN_RANGE 12 10 0 H12 H10 H0)). lia.
Defined.

(** X4: for a non-empty range [min < max], [clamp] returns a value of
    [[min, max)]; it leaves a value of the range alone, so it is
    idempotent; and it is [max min (min x (max - 1))]. *)
Theorem clamp_in_range (x lo hi : Z) :
  is_s32 x -> is_s32 lo -> is_s32 hi -> lo < hi ->
  lo <= clamp x lo hi < hi /\
  (lo <= x < hi -> clamp x lo hi = x) /\
  clamp (clamp x lo hi) lo hi = clamp x lo hi /\
  clamp x lo hi = max lo (min x (int_sub hi 1)).
Proof.
  intros Hx Hlo Hhi Hlt.
  assert (Hs : int_sub hi 1 = hi - 1).
  { apply to_s32_id. unfold is_s32 in *. lia. }
  unfold clamp, max, min. rewrite Hs.
  repeat split; intros; repeat case_decide; lia.
Qed.

Lemma clamp_in_range_witness :
  0 <= clamp 17 0 10 < 10 /\ clamp (-3) 0 10 = max 0 (min (-3) (int_sub 10 1)).
Proof.
  assert (H17 : is_s32 17) by (unfold is_s32; lia).
  assert (H3 : is_s32 (-3)) by (unfold is_s32; lia).
  assert (H0 : is_s32 0) by (unfold is_s32; lia).
  assert (H10 : is_s32 10) by (unfold is_s32; lia).
  assert (Hlt : 0 < 10) by lia.
  split.
  - exact (proj1 (clamp_in_range 17 0 10 H17 H0 H10 Hlt)).
  - exact (proj2 (proj2 (proj2 (clamp_in_range (-3) 0 10 H3 H0 H10 Hlt)))).
Defined.

(** X5: for a non-empty range, [reflect] sends a value that lies less than
    one range width outside back into [[min, max)], at the same distance
    from the wall it crossed: the wall is [max - 1] above and [min] below.
    A value of the range is left alone. *)
Theorem reflect_in_range (x lo hi : Z) :
  is_s32 x -> is_s32 lo -> is_s32 hi -> lo < hi ->
  2 * lo - hi < x <= 2 * (hi - 1) - lo ->
  lo <= reflect x lo hi < hi /\
  (hi <= x -> (hi - 1) - reflect x lo hi = x - (hi - 1)) /\
  (x < lo -> reflect x lo hi - lo = lo - x) /\
  (lo <= x < hi -> reflect x lo hi = x).
Proof.
  intros Hx Hlo Hhi Hlt Hnear. unfold reflect.
  destruct (decide (x >= hi)); [|destruct (decide (x < lo))].
  - assert (int_sub (int_mul 2 (int_sub hi 1)) x = 2 * (hi - 1) - x)
      as -> by int_arith.
    lia.
  - assert (int_sub (int_mul 2 lo) x = 2 * lo - x) as -> by int_arith.
    lia.
  - lia.
Qed.

Lemma reflect_in_range_witness :
  0 <= reflect 12 0 10 < 10 /\ reflect (-3) 0 10 - 0 = 0 - (-3).
Proof.
  assert (H12 : is_s32 12) by (unfold is_s32; lia).
  assert (H3 : is_s32 (-3)) by (unfold is_s32; lia).
  assert (H0 : is_s32 0) by (unfold is_s32; lia).
  assert (H10 : is_s32 10) by (unfold is_s32; lia).
  assert (Hlt : 0 < 10) by lia.
  split.
  - apply (reflect_in_range 12 0 10 H12 H0 H10 Hlt). lia.
  - refine (proj1 (proj2 (proj2
      (reflect_in_range (-3) 0 10 H3 H0 H10 Hlt _))) _); lia.
Defined.

(** X6: for a non-empty range, [wrap] sends a value that lies less than
    one range width outside back into [[min, max)] by adding or
    subtracting the width [max - min] once, also when [x + min] or
    [x + max] itself overflows; a value of the range is left alone. *)
Theorem wrap_in_range (x lo hi : Z) :
  is_s32 x -> is_s32 lo -> is_s32 hi -> lo < hi ->
  lo - (hi - lo) <= x < hi + (hi - lo) ->
  lo <= wrap x lo hi < hi /\
  (hi <= x -> wrap x lo hi = x - (hi - lo)) /\
  (x < lo -> wrap x lo hi = x + (hi - lo)) /\
  (lo <= x < hi -> wrap x lo hi = x).
Proof.
  intros Hx Hlo Hhi Hlt Hnear. unfold wrap.
  destruct (decide (x >= hi)); [|destruct (decide (x < lo))].
  - assert (int_sub (int_add x lo) hi = x + lo - hi) as -> by int_arith.
    lia.
  - assert (int_sub (int_add x hi) lo = x + hi - lo) as -> by int_arith.
    lia.
  - lia.
Qed.

Lemma wrap_in_range_witness :
  2147483000 <= wrap 2147483647 2147483000 2147483600 < 2147483600.
Proof.
  apply (wrap_in_range 2147483647 2147483000 2147483600);
    unfold is_s32; lia.
Defined.

(* ===================================================================== *)
(** * Swapping *)
(* ===================================================================== *)

Lemma int_sub_sub_self (a b : Z) : is_s32 b -> int_sub a (int_sub a b) = b.
Proof. intros Hb. int_arith. Qed.

Lemma int_add_sub_cancel (a b : Z) : is_s32 a -> int_add (int_sub a b) b = a.
Proof. intros Ha. int_arith. Qed.

Lemma int_sub_add_cancel (a b : Z) : is_s32 a -> int_sub (int_add a b) b = a.
Proof. intros Ha. int_arith. Qed.

(** X7: applied to two distinct [int] variables, [SWAP2] exchanges their
    values, also when the difference [a - b] wraps around; applied to one
    variable twice, it sets the variable to 0. *)
Theorem SWAP2_swaps (h : gmap positive Z) (a b : positive) (va vb : Z) :
  h !! a = Some va -> h !! b = Some vb -> is_s32 va -> is_s32 vb ->
  (a <> b -> SWAP2 a b h = Some (<[a := vb]> (<[b := va]> h))) /\
  (a = b -> SWAP2 a b h = Some (<[a := 0]> h)).
Proof.
  intros Ha Hb Hva Hvb. split.
  - intros Hne. unfold SWAP2, stmt_seq, assign, store, binop, load.
    simplify_map_eq.
    rewrite int_add_sub_cancel, int_sub_sub_self by assumption.
    f_equal. rewrite (insert_insert_ne _ b a) by done.
    now rewrite insert_insert_eq.
  - intros <-. unfold SWAP2, stmt_seq, assign, store, binop, load.
    simplify_map_eq. rewrite !insert_insert_eq.
    replace (int_sub va va) with 0 by int_arith. reflexivity.
Qed.

Lemma SWAP2_swaps_witness :
  SWAP2 1%positive 2%positive three_ints
  = Some (<[1%positive := -2]> (<[2%positive := 2147483647]> three_ints)).
Proof.
  refine (proj1 (SWAP2_swaps three_ints 1%positive 2%positive 2147483647 (-2)
                   eq_refl eq_refl _ _) _).
  - unfold is_s32. lia.
  - unfold is_s32. lia.
  - discriminate.
Defined.

(** With a temporary that is neither of the two variables, [SWAP3]
    exchanges their values and leaves [a]'s old value in the temporary;
    unlike [SWAP2] it leaves a variable swapped with itself unchanged. *)
Theorem SWAP3_swaps (h : gmap positive Z) (a b tmp : positive) (va vb vt : Z) :
  h !! a = Some va -> h !! b = Some vb -> h !! tmp = Some vt ->
  tmp <> a -> tmp <> b ->
  SWAP3 a b tmp h = Some (<[b := va]> (<[a := vb]> (<[tmp := va]> h))) /\
  (a = b -> SWAP3 a b tmp h = Some (<[tmp := va]> h)).
Proof.
  intros Ha Hb Ht Hta Htb.
  assert (H3 : SWAP3 a b tmp h
               = Some (<[b := va]> (<[a := vb]> (<[tmp := va]> h)))).
  { unfold SWAP3, stmt_seq, assign, store, load.
    destruct (decide (a = b)) as [<-|Hne]; simplify_map_eq; reflexivity. }
  split; [exact H3|].
  intros <-. rewrite H3. f_equal. rewrite insert_insert_eq.
  apply insert_id. simplify_map_eq. reflexivity.
Qed.

Lemma SWAP3_swaps_witness :
  SWAP3 1%positive 2%positive 3%positive three_ints
  = Some (<[2%positive := 2147483647]> (<[1%positive := -2]>
      (<[3%positive := 2147483647]> three_ints))).
Proof.
  refine (proj1 (SWAP3_swaps three_ints 1%positive 2%positive 3%positive
                   2147483647 (-2) 0 eq_refl eq_refl eq_refl _ _));
    discriminate.
Defined.

(* ===================================================================== *)
(** * More on fixed-point arithmetic *)
(* ===================================================================== *)

Lemma FIX_MASK_255 : FIX_MASK = Z.ones 8.
Proof. reflexivity. Qed.

(** X8: the integer part [fx2uint], read as the signed shift it computes,
    and the fraction [fx2ufrac] split a [FIXED] value without loss: the
    fraction is [fx mod 256], in [[0, 256)] also for a negative [fx], and
    [256 * integer part + fraction] is [fx]. *)
Theorem fx2uint_fx2ufrac_split (fx : Z) :
  is_s32 fx ->
  fx2ufrac fx = fx mod 256 /\
  0 <= fx2ufrac fx < 256 /\
  256 * to_s32 (fx2uint fx) + fx2ufrac fx = fx.
Proof.
  intros Hfx.
  assert (Hf : fx2ufrac fx = fx mod 256).
  { unfold fx2ufrac. rewrite FIX_MASK_255, Z.land_ones by lia.
    unfold to_u32. change (2^8) with 256. Z.div_mod_to_equations. lia. }
  assert (Hi : to_s32 (fx2uint fx) = fx / 256).
  { unfold fx2uint. rewrite shiftr_8_div. int_arith. }
  rewrite Hf, Hi. split; [reflexivity|]. Z.div_mod_to_equations. lia.
Qed.

Lemma fx2uint_fx2ufrac_split_witness :
  fx2ufrac (-384) = (-384) mod 256 /\
  0 <= fx2ufrac (-384) < 256 /\
  256 * to_s32 (fx2uint (-384)) + fx2ufrac (-384) = -384.
Proof. apply (fx2uint_fx2ufrac_split (-384)). unfold is_s32. lia. Defined.

(** X9: [fxadd] and [fxsub] undo each other on every pair of [FIXED]
    values, also when the sum or the difference wraps around. *)
Theorem fxadd_fxsub_inverse (fa fb : Z) :
  is_s32 fa ->
  fxsub (fxadd fa fb) fb = fa /\ fxadd (fxsub fa fb) fb = fa.
Proof.
  intros Ha. unfold fxadd, fxsub.
  split; [now apply int_sub_add_cancel | now apply int_add_sub_cancel].
Qed.

Lemma fxadd_fxsub_inverse_witness :
  fxsub (fxadd 2147483647 256) 256 = 2147483647 /\
  fxadd (fxsub 2147483647 256) 256 = 2147483647.
Proof. apply (fxadd_fxsub_inverse 2147483647 256). unfold is_s32. lia. Defined.

(** X10: [int2fx] turns the [int] sum and difference into [fxadd] and
    [fxsub], for all operands: both sides wrap in the same way. *)
Theorem int2fx_additive (a b : Z) :
  int2fx (int_add a b) = fxadd (int2fx a) (int2fx b) /\
  int2fx (int_sub a b) = fxsub (int2fx a) (int2fx b).
Proof.
  unfold int2fx, fxadd, fxsub. rewrite !shiftl_8_mul. split; int_arith.
Qed.

(** X11: multiplying by an integer converted with [int2fx] is exact
    integer scaling when nothing overflows; in particular [FIX_ONE], which
    is [int2fx 1], is a unit of [fxmul] on either side. *)
Theorem fxmul_int2fx_scales (a fb : Z) :
  is_s32 (a * 256) -> is_s32 (a * 256 * fb) ->
  fxmul (int2fx a) fb = a * fb /\ fxmul fb (int2fx a) = a * fb.
Proof.
  intros Ha Hp. rewrite int2fx_exact by assumption.
  unfold fxmul, int_mul. rewrite (Z.mul_comm fb).
  rewrite to_s32_id, shiftr_8_div by assumption.
  replace (a * 256 * fb) with (a * fb * 256) by lia.
  split; apply Z.div_mul; lia.
Qed.

Lemma fxmul_int2fx_scales_witness :
  int2fx 1 = FIX_SCALE /\
  fxmul (int2fx 1) (-384) = 1 * -384 /\ fxmul (-384) (int2fx 1) = 1 * -384.
Proof.
  split; [reflexivity|].
  apply (fxmul_int2fx_scales 1 (-384)); unfold is_s32; lia.
Defined.

(** X12: when the 32-bit product does not overflow, [fxmul] is the floor
    of the exact scaled product: it rounds toward negative infinity, so
    for a negative product that is not a multiple of 256 it is one less
    than the quotient truncated toward zero. *)
Theorem fxmul_rounds_down (fa fb : Z) :
  is_s32 (fa * fb) ->
  256 * fxmul fa fb <= fa * fb < 256 * fxmul fa fb + 256 /\
  (fa * fb < 0 -> (fa * fb) mod 256 <> 0 ->
     fxmul fa fb = Z.quot (fa * fb) 256 - 1).
Proof.
  intros Hp. unfold fxmul, int_mul.
  rewrite to_s32_id, shiftr_8_div by assumption.
  set (p := fa * fb) in *. split.
  - Z.div_mod_to_equations. lia.
  - intros Hneg Hrem. Z.to_euclidean_division_equations. lia.
Qed.

Lemma fxmul_rounds_down_witness :
  256 * fxmul (-384) 384 <= -384 * 384 < 256 * fxmul (-384) 384 + 256 /\
  fxmul (-1) 128 = Z.quot (-1 * 128) 256 - 1.
Proof.
  split.
  - apply (fxmul_rounds_down (-384) 384). unfold is_s32. lia.
  - refine (proj2 (fxmul_rounds_down (-1) 128 _) _ _).
    + unfold is_s32. lia.
    + lia.
    + discriminate.
Defined.

(** X13: [fxdiv64] with a non-zero divisor returns the quotient of
    [fa * 256] by [fb] truncated toward zero, whenever that quotient fits
    32 bits; dividing by [FIX_ONE] returns [fa]; and scaling by a non-zero
    integer [k] with [fxmul64] and dividing by it again returns [fa]. *)
Theorem fxdiv64_quotient (fa fb k : Z) :
  is_s32 fa -> is_s32 fb -> fb <> 0 ->
  (is_s32 (Z.quot (fa * 256) fb) ->
     fxdiv64 fa fb = Some (Z.quot (fa * 256) fb)) /\
  fxdiv64 fa 256 = Some fa /\
  (k <> 0 -> is_s32 (k * 256) -> is_s32 (fa * k) ->
     fxdiv64 (fxmul64 fa (int2fx k)) (int2fx k) = Some fa).
Proof.
  intros Ha Hb Hnz.
  assert (Hq : forall a b, is_s32 a -> b <> 0 -> is_s32 (Z.quot (a * 256) b) ->
               fxdiv64 a b = Some (Z.quot (a * 256) b)).
  { intros a b Hsa Hbz Hfit. unfold fxdiv64.
    rewrite decide_False by assumption.
    rewrite shiftl_8_mul, to_s64_id by (unfold is_s32, is_s64 in *; lia).
    now rewrite to_s32_id. }
  split; [now apply Hq|]. split.
  - rewrite Hq by (rewrite ?Z.quot_mul; (assumption || lia)).
    now rewrite Z.quot_mul by lia.
  - intros Hk Hk256 Hfk. rewrite int2fx_exact by assumption.
    rewrite fxmul64_floor by assumption.
    replace (fa * (k * 256)) with (fa * k * 256) by lia.
    rewrite Z.div_mul, (to_s32_id (fa * k)) by (assumption || lia).
    assert (Hquot : Z.quot (fa * k * 256) (k * 256) = fa).
    { replace (fa * k * 256) with (fa * (k * 256)) by lia.
      apply Z.quot_mul. lia. }
    rewrite Hq; rewrite ?Hquot; (assumption || lia || reflexivity).
Qed.

Lemma fxdiv64_quotient_witness :
  fxdiv64 (-384) 512 = Some (Z.quot (-384 * 256) 512) /\
  fxdiv64 (fxmul64 (-384) (int2fx 3)) (int2fx 3) = Some (-384).
Proof.
  assert (Ha : is_s32 (-384)) by (unfold is_s32; lia).
  assert (Hb : is_s32 512) by (unfold is_s32; lia).
  assert (Hnz : 512 <> 0) by lia.
  destruct (fxdiv64_quotient (-384) 512 3 Ha Hb Hnz) as (Hq & _ & Hk).
  split.
  - apply Hq. vm_compute. split; [discriminate | reflexivity].
  - apply Hk; unfold is_s32; lia.
Defined.

(** X14: the 32-bit [fxdiv] by [FIX_ONE] returns the low 24 bits of [fa],
    for every [FIXED] value: it is [fa] exactly when [0 <= fa < 2^24]. *)
Theorem fxdiv_by_one (fa : Z) :
  is_s32 fa ->
  fxdiv fa 256 = Some (fa mod 2^24) /\
  (fxdiv fa 256 = Some fa <-> 0 <= fa < 2^24).
Proof.
  intros Ha.
  assert (H : fxdiv fa 256 = Some (fa mod 2^24)).
  { unfold fxdiv. rewrite decide_False by lia. f_equal.
    rewrite FIX_SCALE_256. change (to_u32 256) with 256. int_arith. }
  split; [exact H|]. rewrite H. split.
  - intros [= Hm]. rewrite <- Hm. apply Z.mod_pos_bound. lia.
  - intros Hr. f_equal. apply Z.mod_small. exact Hr.
Qed.

Lemma fxdiv_by_one_witness :
  fxdiv (-256) 256 = Some ((-256) mod 2^24) /\
  (fxdiv (-256) 256 = Some (-256) <-> 0 <= -256 < 2^24).
Proof. apply (fxdiv_by_one (-256)). unfold is_s32. lia. Defined.

(* ===================================================================== *)
(** * Linear interpolation *)
(* ===================================================================== *)

Lemma lu_lerp16_lu_lerp32 (lut : list Z) (x shift : Z) :
  lu_lerp16 lut x shift = lu_lerp32 lut x shift.
Proof. reflexivity. Qed.

Lemma to_u32_to_s32 (z : Z) : to_u32 (to_s32 z) = to_u32 z.
Proof. unfold to_u32. apply to_s32_mod. Qed.

Lemma pow2_shift_bounds (shift : Z) :
  0 <= shift < 32 -> 0 < 2^shift <= 2^31.
Proof.
  intros Hs. split; [apply Z.pow_pos_nonneg; lia|].
  apply Z.pow_le_mono_r; lia.
Qed.

Lemma uint_shr_Some (a n : Z) :
  0 <= n < 32 -> uint_shr a n = Some (a / 2^n).
Proof.
  intros Hn. unfold uint_shr. rewrite decide_True by assumption.
  now rewrite Z.shiftr_div_pow2 by lia.
Qed.

Lemma int_shl_Some (a n : Z) :
  0 <= n < 32 -> int_shl a n = Some (to_s32 (a * 2^n)).
Proof.
  intros Hn. unfold int_shl. rewrite decide_True by assumption.
  now rewrite Z.shiftl_mul_pow2 by lia.
Qed.

Lemma entry_nonneg (lut : list Z) (i : Z) :
  0 <= i -> entry lut i = lut !! Z.to_nat i.
Proof. intros Hi. unfold entry. now rewrite decide_True. Qed.

(** The value of the interpolation between two entries that exist: the
    product is reduced modulo 2^32 before it is shifted. *)
Lemma lu_lerp32_value (lut : list Z) (x shift ya yb : Z) :
  is_u32 x -> 0 <= shift < 32 -> x / 2^shift + 1 < 2^31 ->
  lut !! Z.to_nat (x / 2^shift) = Some ya ->
  lut !! Z.to_nat (x / 2^shift + 1) = Some yb ->
  lu_lerp32 lut x shift =
    Some (to_s32 (ya + ((yb - ya) * (x mod 2^shift)) mod 2^32 / 2^shift)).
Proof.
  intros Hx Hs Hxa Hya Hyb.
  pose proof (pow2_shift_bounds shift Hs) as Hn.
  assert (Hq : 0 <= x / 2^shift) by (apply Z.div_pos; unfold is_u32 in Hx; lia).
  unfold lu_lerp32.
  rewrite uint_shr_Some by assumption. simpl.
  rewrite (to_s32_id (x / 2^shift)) by (unfold is_s32; lia).
  rewrite (entry_nonneg lut (x / 2^shift)) by assumption. rewrite Hya. simpl.
  unfold int_add. rewrite (to_s32_id (x / 2^shift + 1)) by (unfold is_s32; lia).
  rewrite (entry_nonneg lut (x / 2^shift + 1)) by lia. rewrite Hyb. simpl.
  rewrite int_shl_Some by assumption. simpl.
  rewrite uint_shr_Some by assumption. simpl. f_equal.
  assert (Hfrac : to_u32 (x - to_u32 (to_s32 (x / 2^shift * 2^shift)))
                  = x mod 2^shift).
  { rewrite to_u32_to_s32. unfold to_u32, is_u32 in *.
    pose proof (Z.mod_pos_bound x (2^shift) ltac:(lia)) as Hm.
    pose proof (Z.div_mod x (2^shift) ltac:(lia)) as Hdm.
    rewrite (Z.mod_small (x / 2^shift * 2^shift)) by lia.
    replace (x - x / 2^shift * 2^shift) with (x mod 2^shift) by lia.
    apply Z.mod_small. lia. }
  rewrite Hfrac.
  assert (Hprod : to_u32 (to_u32 (int_sub yb ya) * (x mod 2^shift))
                  = ((yb - ya) * (x mod 2^shift)) mod 2^32).
  { unfold int_sub. rewrite to_u32_to_s32. unfold to_u32.
    now rewrite Zmult_mod_idemp_l. }
  rewrite Hprod. apply to_s32_congr. unfold to_u32.
  now rewrite Zmod_mod, Zplus_mod_idemp_l.
Qed.

(** Without an entry after the one [x] falls on there is no result. *)
Lemma lu_lerp32_no_next (lut : list Z) (x shift : Z) :
  is_u32 x -> 0 <= shift < 32 -> x / 2^shift + 1 < 2^31 ->
  (length lut <= Z.to_nat (x / 2^shift + 1))%nat ->
  lu_lerp32 lut x shift = None.
Proof.
  intros Hx Hs Hxa Hlen.
  pose proof (pow2_shift_bounds shift Hs) as Hn.
  assert (Hq : 0 <= x / 2^shift) by (apply Z.div_pos; unfold is_u32 in Hx; lia).
  unfold lu_lerp32.
  rewrite uint_shr_Some by assumption. simpl.
  rewrite (to_s32_id (x / 2^shift)) by (unfold is_s32; lia).
  unfold int_add. rewrite (to_s32_id (x / 2^shift + 1)) by (unfold is_s32; lia).
  rewrite (entry_nonneg lut (x / 2^shift + 1)) by lia.
  rewrite (lookup_ge_None_2 lut _ Hlen).
  destruct (entry lut (x / 2^shift)); reflexivity.
Qed.

(** X15: on a segment that does not descend, [ya <= yb], and when the
    product of the difference and the fraction stays below 2^32, both
    interpolators return [ya] plus the floor of
    [(yb - ya) * fraction / 2^shift], a value between the two entries. *)
Theorem lu_lerp_ascending (lut : list Z) (x shift ya yb : Z) :
  is_u32 x -> 0 <= shift < 32 -> x / 2^shift + 1 < 2^31 ->
  lut !! Z.to_nat (x / 2^shift) = Some ya ->
  lut !! Z.to_nat (x / 2^shift + 1) = Some yb ->
  is_s32 ya -> is_s32 yb -> ya <= yb ->
  (yb - ya) * (x mod 2^shift) < 2^32 ->
  lu_lerp32 lut x shift = Some (ya + (yb - ya) * (x mod 2^shift) / 2^shift) /\
  lu_lerp16 lut x shift = Some (ya + (yb - ya) * (x mod 2^shift) / 2^shift) /\
  ya <= ya + (yb - ya) * (x mod 2^shift) / 2^shift <= yb.
Proof.
  intros Hx Hs Hxa Hya Hyb Hsa Hsb Hle Hprod.
  pose proof (pow2_shift_bounds shift Hs) as Hn.
  pose proof (Z.mod_pos_bound x (2^shift) ltac:(lia)) as Hm.
  set (frac := x mod 2^shift) in *.
  assert (Hsh : 0 <= (yb - ya) * frac / 2^shift <= yb - ya).
  { split.
    - apply Z.div_pos; nia.
    - apply Z.div_le_upper_bound; nia. }
  change (lu_lerp16 lut x shift) with (lu_lerp32 lut x shift).
  rewrite (lu_lerp32_value lut x shift ya yb) by assumption.
  fold frac. rewrite (Z.mod_small ((yb - ya) * frac)) by nia.
  rewrite to_s32_id by (unfold is_s32 in *; lia).
  split; [reflexivity|]. split; [reflexivity|]. lia.
Qed.

Lemma lu_lerp_ascending_witness :
  lu_lerp32 index_lut 1000 8 = Some (3 + (4 - 3) * (1000 mod 2^8) / 2^8) /\
  lu_lerp16 index_lut 1000 8 = Some (3 + (4 - 3) * (1000 mod 2^8) / 2^8) /\
  3 <= 3 + (4 - 3) * (1000 mod 2^8) / 2^8 <= 4.
Proof.
  apply (lu_lerp_ascending index_lut 1000 8 3 4);
    try reflexivity; unfold is_u32, is_s32; lia.
Defined.

(** X16: on a descending segment, [yb < ya], with a non-zero fraction, at
    least one fractional bit and a product [(ya - yb) * fraction] below
    2^32, the interpolators do not return the interpolated value
    [c = ya + floor ((yb - ya) * fraction / 2^shift)], which lies in
    [[yb, ya)]: the negative product is shifted as an unsigned number, and
    the result is [c + 2^(32 - shift)], converted to [int]. *)
Theorem lu_lerp_descending (lut : list Z) (x shift ya yb : Z) :
  is_u32 x -> 1 <= shift < 32 -> x / 2^shift + 1 < 2^31 ->
  lut !! Z.to_nat (x / 2^shift) = Some ya ->
  lut !! Z.to_nat (x / 2^shift + 1) = Some yb ->
  is_s32 ya -> is_s32 yb -> yb < ya ->
  x mod 2^shift <> 0 ->
  (ya - yb) * (x mod 2^shift) < 2^32 ->
  let c := ya + (yb - ya) * (x mod 2^shift) / 2^shift in
  yb <= c < ya /\
  lu_lerp32 lut x shift = Some (to_s32 (c + 2^(32 - shift))) /\
  lu_lerp16 lut x shift = Some (to_s32 (c + 2^(32 - shift))) /\
  lu_lerp32 lut x shift <> Some c.
Proof.
  intros Hx Hs Hxa Hya Hyb Hsa Hsb Hlt Hfrac Hprod c.
  assert (Hs' : 0 <= shift < 32) by lia.
  pose proof (pow2_shift_bounds shift Hs') as Hn.
  pose proof (Z.mod_pos_bound x (2^shift) ltac:(lia)) as Hm.
  assert (Hpow : 2^32 = 2^(32 - shift) * 2^shift).
  { rewrite <- Z.pow_add_r by lia. f_equal. lia. }
  assert (HP : 0 < 2^(32 - shift) <= 2^31).
  { split; [apply Z.pow_pos_nonneg; lia | apply Z.pow_le_mono_r; lia]. }
  subst c. set (frac := x mod 2^shift) in *.
  set (d := (yb - ya) * frac) in *.
  assert (Hd : - 2^32 < d < 0) by (subst d; nia).
  assert (Hc : yb - ya <= d / 2^shift < 0).
  { split.
    - apply Z.div_le_lower_bound; subst d; nia.
    - apply Z.div_lt_upper_bound; lia. }
  assert (Hv : lu_lerp32 lut x shift
               = Some (to_s32 (ya + d / 2^shift + 2^(32 - shift)))).
  { rewrite (lu_lerp32_value lut x shift ya yb) by assumption.
    fold frac. fold d. do 2 f_equal.
    replace (d mod 2^32) with (2^(32 - shift) * 2^shift + d)
      by (rewrite <- Hpow; apply Z.mod_unique with (q := -1); lia).
    rewrite Z.div_add_l by lia. lia. }
  split; [lia|].
  change (lu_lerp16 lut x shift) with (lu_lerp32 lut x shift). rewrite Hv.
  split; [reflexivity|]. split; [reflexivity|].
  intros [= Heq]. set (P := 2^(32 - shift)) in *.
  set (q := d / 2^shift) in *. clearbody P q. clear Hv Hpow Hn Hprod.
  unfold to_s32, is_s32 in *. Z.div_mod_to_equations. lia.
Qed.

Lemma lu_lerp_descending_witness :
  lu_lerp32 descending_lut 128 8 = Some (to_s32 (5 + 2^(32 - 8))) /\
  lu_lerp32 descending_lut 128 8 <> Some 5.
Proof.
  assert (H : let c := 10 + (0 - 10) * (128 mod 2^8) / 2^8 in
              0 <= c < 10 /\
              lu_lerp32 descending_lut 128 8 = Some (to_s32 (c + 2^(32 - 8))) /\
              lu_lerp16 descending_lut 128 8 = Some (to_s32 (c + 2^(32 - 8))) /\
              lu_lerp32 descending_lut 128 8 <> Some c).
  { apply (lu_lerp_descending descending_lut 128 8 10 0);
      try reflexivity; unfold is_u32, is_s32; try lia.
    vm_compute. discriminate. }
  destruct H as (_ & H32 & _ & Hne). split; [exact H32 | exact Hne].
Defined.

(** X17: when [x] falls exactly on an entry (no fraction) and the next
    entry exists, both interpolators return that entry, whatever the next
    one is; when the next entry does not exist they have no result, even
    though it would not contribute. *)
Theorem lu_lerp_on_entry (lut : list Z) (x shift ya : Z) :
  is_u32 x -> 0 <= shift < 32 -> x / 2^shift + 1 < 2^31 ->
  lut !! Z.to_nat (x / 2^shift) = Some ya -> is_s32 ya ->
  x mod 2^shift = 0 ->
  (forall yb, lut !! Z.to_nat (x / 2^shift + 1) = Some yb ->
     lu_lerp32 lut x shift = Some ya /\ lu_lerp16 lut x shift = Some ya) /\
  (lut !! Z.to_nat (x / 2^shift + 1) = None ->
     lu_lerp32 lut x shift = None /\ lu_lerp16 lut x shift = None).
Proof.
  intros Hx Hs Hxa Hya Hsa Hfrac. split.
  - intros yb Hyb.
    change (lu_lerp16 lut x shift) with (lu_lerp32 lut x shift).
    rewrite (lu_lerp32_value lut x shift ya yb) by assumption.
    rewrite Hfrac, Z.mul_0_r, Z.mod_0_l, Z.div_0_l, Z.add_0_r by lia.
    now rewrite to_s32_id.
  - intros Hnone.
    change (lu_lerp16 lut x shift) with (lu_lerp32 lut x shift).
    apply lookup_ge_None in Hnone.
    now rewrite lu_lerp32_no_next.
Qed.

Lemma lu_lerp_on_entry_witness :
  lu_lerp32 descending_lut 0 8 = Some 10 /\
  lu_lerp32 descending_lut 512 8 = None.
Proof.
  split.
  - refine (proj1 (proj1 (lu_lerp_on_entry descending_lut 0 8 10
                            _ _ _ eq_refl _ eq_refl) 0 eq_refl));
      first [reflexivity | unfold is_u32, is_s32; lia].
  - refine (proj1 (proj2 (lu_lerp_on_entry descending_lut 512 8 0
                            _ _ _ eq_refl _ eq_refl) eq_refl));
      first [reflexivity | unfold is_u32, is_s32; lia].
Defined.

Section LerpSine.
Variable sin_lut : list Z.
Hypothesis sin_lut_size : length sin_lut = SIN_LUT_SIZE.

(** X18: interpolating in the sine table with the 7 fractional bits that
    [lu_sin] drops has a result for every angle below 65664: the two extra
    entries cover the interpolation up to the last sample of the turn, and
    no further.  At the multiples of 128 within one turn the result is
    [lu_sin]'s. *)
Theorem lu_lerp16_sin_lut (theta : Z) :
  is_u32 theta ->
  (theta < 65664 -> is_Some (lu_lerp16 sin_lut theta 7)) /\
  (65664 <= theta -> lu_lerp16 sin_lut theta 7 = None) /\
  (theta < 65536 -> theta mod 128 = 0 ->
     lu_lerp16 sin_lut theta 7 = lu_sin sin_lut theta).
Proof using sin_lut_size.
  intros Hx. pose proof Hx as Hx'. unfold is_u32 in Hx'.
  change (lu_lerp16 sin_lut theta 7) with (lu_lerp32 sin_lut theta 7).
  assert (Hq : 0 <= theta / 2^7 < 2^25) by (Z.div_mod_to_equations; lia).
  split; [|split].
  - intros Hlt.
    assert (Hi : theta / 2^7 <= 512) by (Z.div_mod_to_equations; lia).
    destruct (lookup_lt_is_Some_2 sin_lut (Z.to_nat (theta / 2^7)))
      as [ya Hya]; [rewrite sin_lut_size; unfold SIN_LUT_SIZE; lia|].
    destruct (lookup_lt_is_Some_2 sin_lut (Z.to_nat (theta / 2^7 + 1)))
      as [yb Hyb]; [rewrite sin_lut_size; unfold SIN_LUT_SIZE; lia|].
    rewrite (lu_lerp32_value sin_lut theta 7 ya yb) by (assumption || lia).
    eexists. reflexivity.
  - intros Hge.
    assert (Hi : 513 <= theta / 2^7) by (Z.div_mod_to_equations; lia).
    apply lu_lerp32_no_next; try (assumption || lia).
    rewrite sin_lut_size. unfold SIN_LUT_SIZE. lia.
  - intros Hlt Hfrac.
    assert (Hi : theta / 2^7 <= 511) by (Z.div_mod_to_equations; lia).
    destruct (lookup_lt_is_Some_2 sin_lut (Z.to_nat (theta / 2^7)))
      as [ya Hya]; [rewrite sin_lut_size; unfold SIN_LUT_SIZE; lia|].
    destruct (lookup_lt_is_Some_2 sin_lut (Z.to_nat (theta / 2^7 + 1)))
      as [yb Hyb]; [rewrite sin_lut_size; unfold SIN_LUT_SIZE; lia|].
    rewrite (lu_lerp32_value sin_lut theta 7 ya yb) by (assumption || lia).
    change (2^7) with 128 in *.
    rewrite Hfrac, Z.mul_0_r, Z.mod_0_l, Z.div_0_l, Z.add_0_r by lia.
    unfold lu_sin. rewrite lu_sin_index_div.
    rewrite (Z.mod_small (theta / 128)) by lia.
    now rewrite Hya.
Qed.
End LerpSine.

Lemma lu_lerp16_sin_lut_witness :
  is_Some (lu_lerp16 index_lut 65535 7) /\
  lu_lerp16 index_lut 65664 7 = None /\
  lu_lerp16 index_lut 1280 7 = lu_sin index_lut 1280.
Proof.
  assert (Hsize : length index_lut = SIN_LUT_SIZE) by reflexivity.
  split; [|split].
  - apply (proj1 (lu_lerp16_sin_lut index_lut Hsize 65535
                    ltac:(unfold is_u32; lia))). lia.
  - apply (proj1 (proj2 (lu_lerp16_sin_lut index_lut Hsize 65664
                           ltac:(unfold is_u32; lia)))). lia.
  - apply (proj2 (proj2 (lu_lerp16_sin_lut index_lut Hsize 1280
                           ltac:(unfold is_u32; lia)))); [lia | reflexivity].
Defined.

(* ===================================================================== *)
(** * More on points *)
(* ===================================================================== *)

Lemma int_mul_to_s32_l (a b : Z) : int_mul (to_s32 a) b = int_mul a b.
Proof.
  apply to_s32_congr.
  rewrite <- Zmult_mod_idemp_l, to_s32_mod, Zmult_mod_idemp_l. reflexivity.
Qed.

Lemma int_mul_to_s32_r (a b : Z) : int_mul a (to_s32 b) = int_mul a b.
Proof.
  apply to_s32_congr.
  rewrite <- Zmult_mod_idemp_r, to_s32_mod, Zmult_mod_idemp_r. reflexivity.
Qed.

Lemma to_s32_add_l (a b : Z) : to_s32 (to_s32 a + b) = to_s32 (a + b).
Proof. apply int_add_to_s32_l. Qed.

Lemma to_s32_add_r (a b : Z) : to_s32 (a + to_s32 b) = to_s32 (a + b).
Proof. apply int_add_to_s32_r. Qed.

Lemma to_s32_sub_l (a b : Z) : to_s32 (to_s32 a - b) = to_s32 (a - b).
Proof. apply int_sub_to_s32_l. Qed.

Lemma to_s32_sub_r (a b : Z) : to_s32 (a - to_s32 b) = to_s32 (a - b).
Proof. apply int_sub_to_s32_r. Qed.

Lemma to_s32_mul_l (a b : Z) : to_s32 (to_s32 a * b) = to_s32 (a * b).
Proof. apply int_mul_to_s32_l. Qed.

Lemma to_s32_mul_r (a b : Z) : to_s32 (a * to_s32 b) = to_s32 (a * b).
Proof. apply int_mul_to_s32_r. Qed.

Lemma to_s32_opp (a : Z) : to_s32 (- to_s32 a) = to_s32 (- a).
Proof.
  change (- to_s32 a) with (0 - to_s32 a). change (- a) with (0 - a).
  apply to_s32_sub_r.
Qed.

(** Normalisation of a nest of [int] operations to one [to_s32] around a
    polynomial, then comparison of the polynomials. *)
Ltac int_ring :=
  unfold int_neg, int_add, int_sub, int_mul;
  repeat (rewrite_strat
    (innermost (terms to_s32_add_l to_s32_add_r to_s32_sub_l to_s32_sub_r
                      to_s32_mul_l to_s32_mul_r to_s32_opp)));
  first [ f_equal; ring
        | match goal with
          | |- to_s32 ?p = ?z => replace p with z by ring; reflexivity
          end ].

Lemma pt_scale_spec (h : gmap positive POINT) (pd pa : positive)
    (d a : POINT) (c : Z) :
  h !! pd = Some d -> h !! pa = Some a ->
  pt_scale pd pa c h =
    Some (pd, <[pd := mkPOINT (int_mul (pt_x a) c) (int_mul (pt_y a) c)]> h).
Proof. intros Hd Ha. unfold pt_scale. run_body Hd. Qed.

Lemma pt_scale_eq_spec (h : gmap positive POINT) (pd : positive)
    (d : POINT) (c : Z) :
  h !! pd = Some d ->
  pt_scale_eq pd c h =
    Some (pd, <[pd := mkPOINT (int_mul (pt_x d) c) (int_mul (pt_y d) c)]> h).
Proof. intros Hd. unfold pt_scale_eq. run_body Hd. Qed.

Lemma pt_cross_value (h : gmap positive POINT) (pa pb : positive) (a b : POINT) :
  h !! pa = Some a -> h !! pb = Some b ->
  pt_cross pa pb h =
    Some (int_sub (int_mul (pt_x a) (pt_y b)) (int_mul (pt_y a) (pt_x b))).
Proof.
  intros Ha Hb. unfold pt_cross, binop.
  now rewrite !(load_Some _ _ _ _ Ha), !(load_Some _ _ _ _ Hb).
Qed.

Lemma pt_dot_value (h : gmap positive POINT) (pa pb : positive) (a b : POINT) :
  h !! pa = Some a -> h !! pb = Some b ->
  pt_dot pa pb h =
    Some (int_add (int_mul (pt_x a) (pt_x b)) (int_mul (pt_y a) (pt_y b))).
Proof.
  intros Ha Hb. unfold pt_dot, binop.
  now rewrite !(load_Some _ _ _ _ Ha), !(load_Some _ _ _ _ Hb).
Qed.

(** X19: [pt_cross] is antisymmetric, so the cross product of a point with
    itself is 0, and [pt_dot] is symmetric; both also when a product
    wraps around. *)
Theorem pt_cross_antisymmetric (h : gmap positive POINT) (pa pb : positive)
    (a b : POINT) :
  h !! pa = Some a -> h !! pb = Some b ->
  (exists u v, pt_cross pa pb h = Some u /\ pt_cross pb pa h = Some v /\
               int_add u v = 0 /\ u = int_neg v) /\
  pt_cross pa pa h = Some 0 /\
  pt_dot pa pb h = pt_dot pb pa h.
Proof.
  intros Ha Hb. split; [|split].
  - eexists _, _.
    split; [eapply pt_cross_value; eassumption|].
    split; [eapply pt_cross_value; eassumption|].
    split.
    + int_ring.
    + int_ring.
  - rewrite (pt_cross_value h pa pa a a) by assumption. f_equal.
    int_ring.
  - rewrite (pt_dot_value h pa pb a b), (pt_dot_value h pb pa b a)
      by assumption.
    f_equal. int_ring.
Qed.

Lemma pt_cross_antisymmetric_witness :
  pt_cross 1%positive 1%positive points_1234 = Some 0 /\
  pt_dot 1%positive 2%positive points_1234
    = pt_dot 2%positive 1%positive points_1234.
Proof.
  destruct (pt_cross_antisymmetric points_1234 1%positive 2%positive
              (mkPOINT 1 2) (mkPOINT 3 4) eq_refl eq_refl) as (_ & Hs & Hd).
  split; [exact Hs | exact Hd].
Defined.

(** X20: a point scaled by [pt_scale] into another object is parallel to
    the original: their [pt_cross] is 0 in either order, whatever the
    factor and also when the products wrap around. *)
Theorem pt_scale_parallel (h : gmap positive POINT) (pd pa : positive)
    (d a : POINT) (c : Z) :
  h !! pd = Some d -> h !! pa = Some a -> pd <> pa ->
  exists h' : gmap positive POINT,
    pt_scale pd pa c h = Some (pd, h') /\
    h' !! pd = Some (mkPOINT (int_mul (pt_x a) c) (int_mul (pt_y a) c)) /\
    h' !! pa = Some a /\
    pt_cross pd pa h' = Some 0 /\ pt_cross pa pd h' = Some 0.
Proof.
  intros Hd Ha Hne. eexists. split; [eapply pt_scale_spec; eassumption|].
  assert (Hd' : <[pd := mkPOINT (int_mul (pt_x a) c) (int_mul (pt_y a) c)]> h
                !! pd = Some (mkPOINT (int_mul (pt_x a) c) (int_mul (pt_y a) c)))
    by apply lookup_insert_eq.
  assert (Ha' : <[pd := mkPOINT (int_mul (pt_x a) c) (int_mul (pt_y a) c)]> h
                !! pa = Some a)
    by now rewrite lookup_insert_ne.
  split; [exact Hd'|]. split; [exact Ha'|]. split.
  - rewrite (pt_cross_value _ pd pa _ a Hd' Ha'). f_equal. simpl.
    int_ring.
  - rewrite (pt_cross_value _ pa pd a _ Ha' Hd'). f_equal. simpl.
    int_ring.
Qed.

Lemma pt_scale_parallel_witness :
  exists h' : gmap positive POINT,
    pt_scale 3%positive 1%positive 70000 points_1234 = Some (3%positive, h') /\
    h' !! 3%positive = Some (mkPOINT (int_mul 1 70000) (int_mul 2 70000)) /\
    h' !! 1%positive = Some (mkPOINT 1 2) /\
    pt_cross 3%positive 1%positive h' = Some 0 /\
    pt_cross 1%positive 3%positive h' = Some 0.
Proof.
  apply (pt_scale_parallel points_1234 3%positive 1%positive
           (mkPOINT 0 0) (mkPOINT 1 2) 70000 eq_refl eq_refl).
  discriminate.
Defined.

(** X21: [pt_scale_eq] is [pt_scale] of a point into itself, and scaling
    twice in place is scaling once by the [int] product of the factors. *)
Theorem pt_scale_eq_compose (h : gmap positive POINT) (pd : positive)
    (d : POINT) (c1 c2 : Z) :
  h !! pd = Some d ->
  pt_scale_eq pd c1 h = pt_scale pd pd c1 h /\
  ('(_, h1) ← pt_scale_eq pd c1 h; pt_scale_eq pd c2 h1)
    = pt_scale_eq pd (int_mul c1 c2) h.
Proof.
  intros Hd. split; [reflexivity|].
  rewrite (pt_scale_eq_spec h pd d c1 Hd). simpl.
  rewrite (pt_scale_eq_spec _ pd _ c2 (lookup_insert_eq _ _ _)).
  rewrite (pt_scale_eq_spec h pd d (int_mul c1 c2) Hd).
  rewrite insert_insert_eq. simpl. do 4 f_equal.
  - int_ring.
  - int_ring.
Qed.

Lemma pt_scale_eq_compose_witness :
  ('(_, h1) ← pt_scale_eq 1%positive 3 points_1234;
   pt_scale_eq 1%positive 5 h1)
  = pt_scale_eq 1%positive (int_mul 3 5) points_1234.
Proof.
  exact (proj2 (pt_scale_eq_compose points_1234 1%positive (mkPOINT 1 2) 3 5
                  eq_refl)).
Defined.

(* ===================================================================== *)
(** * More on rectangles *)
(* ===================================================================== *)

Section RectCalls.
Variable h : gmap positive RECT.
Variable rc : positive.
Variable r : RECT.
Hypothesis Hr : h !! rc = Some r.

Lemma rc_width_value :
  rc_width rc h = Some (int_sub (rc_right r) (rc_left r)).
Proof using Hr. unfold rc_width, binop. now rewrite !(load_Some _ _ _ _ Hr). Qed.

Lemma rc_height_value :
  rc_height rc h = Some (int_sub (rc_bottom r) (rc_top r)).
Proof using Hr. unfold rc_height, binop. now rewrite !(load_Some _ _ _ _ Hr). Qed.

Lemma rc_set_spec (l t r' b : Z) :
  rc_set rc l t r' b h = Some (rc, <[rc := mkRECT l t r' b]> h).
Proof using Hr. unfold rc_set. run_body Hr. Qed.

Lemma rc_set2_spec (x y w ht : Z) :
  rc_set2 rc x y w ht h =
    Some (rc, <[rc := mkRECT x y (int_add x w) (int_add y ht)]> h).
Proof using Hr. unfold rc_set2. run_body Hr. Qed.

Lemma rc_set_pos_spec (x y : Z) :
  rc_set_pos rc x y h =
    Some (rc, <[rc := mkRECT x y
                        (int_add (rc_right r) (int_sub x (rc_left r)))
                        (int_add (rc_bottom r) (int_sub y (rc_top r)))]> h).
Proof using Hr. unfold rc_set_pos. run_body Hr. Qed.

Lemma rc_set_size_spec (w ht : Z) :
  rc_set_size rc w ht h =
    Some (rc, <[rc := mkRECT (rc_left r) (rc_top r)
                        (int_add (rc_left r) w) (int_add (rc_top r) ht)]> h).
Proof using Hr. unfold rc_set_size. run_body Hr. Qed.

Lemma rc_move_spec (dx dy : Z) :
  rc_move rc dx dy h =
    Some (rc, <[rc := mkRECT (int_add (rc_left r) dx) (int_add (rc_top r) dy)
                        (int_add (rc_right r) dx)
                        (int_add (rc_bottom r) dy)]> h).
Proof using Hr. unfold rc_move. run_body Hr. Qed.

Lemma rc_inflate_spec (dw dh : Z) :
  rc_inflate rc dw dh h =
    Some (rc, <[rc := mkRECT (int_sub (rc_left r) dw) (int_sub (rc_top r) dh)
                        (int_add (rc_right r) dw)
                        (int_add (rc_bottom r) dh)]> h).
Proof using Hr. unfold rc_inflate. run_body Hr. Qed.

(** [dr] may be [rc] itself. *)
Lemma rc_inflate2_spec (dr : positive) (d : RECT) :
  h !! dr = Some d ->
  rc_inflate2 rc dr h =
    Some (rc, <[rc := mkRECT (int_add (rc_left r) (rc_left d))
                        (int_add (rc_top r) (rc_top d))
                        (int_add (rc_right r) (rc_right d))
                        (int_add (rc_bottom r) (rc_bottom d))]> h).
Proof using Hr. intros Hdr. unfold rc_inflate2. run_body Hr. Qed.
End RectCalls.

(** X22: after [rc_set2 (rc, x, y, w, h)] the rect's left and top are [x]
    and [y] and [rc_width] and [rc_height] return [w] and [h], also when
    [x + w] or [y + h] wraps around. *)
Theorem rc_set2_size (h : gmap positive RECT) (rc : positive) (r : RECT)
    (x y w ht : Z) :
  h !! rc = Some r -> is_s32 w -> is_s32 ht ->
  exists h' : gmap positive RECT,
    rc_set2 rc x y w ht h = Some (rc, h') /\
    load rc LEFT h' = Some x /\ load rc TOP h' = Some y /\
    rc_width rc h' = Some w /\ rc_height rc h' = Some ht.
Proof.
  intros Hr Hw Hh. eexists. split; [eapply rc_set2_spec; eassumption|].
  rewrite (rc_width_value _ _ _ (lookup_insert_eq _ _ _)).
  rewrite (rc_height_value _ _ _ (lookup_insert_eq _ _ _)).
  rewrite !load_insert_eq. simpl.
  split; [reflexivity|]. split; [reflexivity|].
  split; f_equal; int_arith.
Qed.

Lemma rc_set2_size_witness :
  exists h' : gmap positive RECT,
    rc_set2 1%positive 2147483600 0 100 50 one_rect = Some (1%positive, h') /\
    load 1%positive LEFT h' = Some 2147483600 /\
    load 1%positive TOP h' = Some 0 /\
    rc_width 1%positive h' = Some 100 /\ rc_height 1%positive h' = Some 50.
Proof.
  apply (rc_set2_size one_rect 1%positive (mkRECT 10 20 110 70));
    [reflexivity | unfold is_s32; lia | unfold is_s32; lia].
Defined.

(** X23: [rc_set_size] keeps the rect's left and top and makes [rc_width]
    and [rc_height] return the given [w] and [h]. *)
Theorem rc_set_size_resizes (h : gmap positive RECT) (rc : positive) (r : RECT)
    (w ht : Z) :
  h !! rc = Some r -> is_s32 w -> is_s32 ht ->
  exists h' : gmap positive RECT,
    rc_set_size rc w ht h = Some (rc, h') /\
    load rc LEFT h' = load rc LEFT h /\ load rc TOP h' = load rc TOP h /\
    rc_width rc h' = Some w /\ rc_height rc h' = Some ht.
Proof.
  intros Hr Hw Hh. eexists. split; [eapply rc_set_size_spec; eassumption|].
  rewrite (rc_width_value _ _ _ (lookup_insert_eq _ _ _)).
  rewrite (rc_height_value _ _ _ (lookup_insert_eq _ _ _)).
  rewrite !load_insert_eq, !(load_Some _ _ _ _ Hr). simpl.
  split; [reflexivity|]. split; [reflexivity|].
  split; f_equal; int_arith.
Qed.

Lemma rc_set_size_resizes_witness :
  exists h' : gmap positive RECT,
    rc_set_size 1%positive 7 9 one_rect = Some (1%positive, h') /\
    load 1%positive LEFT h' = load 1%positive LEFT one_rect /\
    load 1%positive TOP h' = load 1%positive TOP one_rect /\
    rc_width 1%positive h' = Some 7 /\ rc_height 1%positive h' = Some 9.
Proof.
  apply (rc_set_size_resizes one_rect 1%positive (mkRECT 10 20 110 70));
    [reflexivity | unfold is_s32; lia | unfold is_s32; lia].
Defined.

(** X24: [rc_move] leaves [rc_width] and [rc_height] as they were, and two
    moves in a row are one move by the [int] sums of the offsets. *)
Theorem rc_move_translates (h : gmap positive RECT) (rc : positive) (r : RECT)
    (dx dy dx2 dy2 : Z) :
  h !! rc = Some r ->
  (exists h' : gmap positive RECT,
     rc_move rc dx dy h = Some (rc, h') /\
     rc_width rc h' = rc_width rc h /\ rc_height rc h' = rc_height rc h) /\
  ('(_, h1) ← rc_move rc dx dy h; rc_move rc dx2 dy2 h1)
    = rc_move rc (int_add dx dx2) (int_add dy dy2) h.
Proof.
  intros Hr. split.
  - eexists. split; [eapply rc_move_spec; eassumption|].
    rewrite (rc_width_value _ _ _ (lookup_insert_eq _ _ _)).
    rewrite (rc_height_value _ _ _ (lookup_insert_eq _ _ _)).
    rewrite (rc_width_value _ _ _ Hr), (rc_height_value _ _ _ Hr). simpl.
    split; f_equal; int_ring.
  - rewrite (rc_move_spec h rc r Hr dx dy). simpl.
    rewrite (rc_move_spec _ rc _ (lookup_insert_eq _ _ _) dx2 dy2).
    rewrite (rc_move_spec h rc r Hr). rewrite insert_insert_eq. simpl.
    do 3 f_equal. f_equal; int_ring.
Qed.

Lemma rc_move_translates_witness :
  ('(_, h1) ← rc_move 1%positive 3 4 one_rect; rc_move 1%positive (-5) 6 h1)
    = rc_move 1%positive (int_add 3 (-5)) (int_add 4 6) one_rect.
Proof.
  exact (proj2 (rc_move_translates one_rect 1%positive (mkRECT 10 20 110 70)
                  3 4 (-5) 6 eq_refl)).
Defined.

(** X25: [rc_inflate] by [dw], [dh] makes the width [2 * dw] and the
    height [2 * dh] larger (in [int] arithmetic), and inflating by the
    negated amounts afterwards gives back the rect. *)
Theorem rc_inflate_grows (h : gmap positive RECT) (rc : positive) (r : RECT)
    (dw dh : Z) :
  h !! rc = Some r -> RECT_ok r ->
  (exists h' w0 h0,
     rc_inflate rc dw dh h = Some (rc, h') /\
     rc_width rc h = Some w0 /\ rc_height rc h = Some h0 /\
     rc_width rc h' = Some (int_add w0 (int_mul 2 dw)) /\
     rc_height rc h' = Some (int_add h0 (int_mul 2 dh))) /\
  ('(_, h1) ← rc_inflate rc dw dh h;
   rc_inflate rc (int_neg dw) (int_neg dh) h1) = Some (rc, h).
Proof.
  intros Hr (Hl & Ht & Hri & Hb). split.
  - eexists _, _, _. split; [eapply rc_inflate_spec; eassumption|].
    split; [eapply rc_width_value; eassumption|].
    split; [eapply rc_height_value; eassumption|].
    rewrite (rc_width_value _ _ _ (lookup_insert_eq _ _ _)).
    rewrite (rc_height_value _ _ _ (lookup_insert_eq _ _ _)). simpl.
    split; f_equal; int_ring.
  - rewrite (rc_inflate_spec h rc r Hr dw dh). simpl.
    rewrite (rc_inflate_spec _ rc _ (lookup_insert_eq _ _ _)).
    rewrite insert_insert_eq. simpl. do 2 f_equal.
    apply insert_id. rewrite Hr. f_equal. destruct r as [l t ri b]. simpl in *.
    f_equal.
    + transitivity (to_s32 l); [now rewrite to_s32_id | int_ring].
    + transitivity (to_s32 t); [now rewrite to_s32_id | int_ring].
    + transitivity (to_s32 ri); [now rewrite to_s32_id | int_ring].
    + transitivity (to_s32 b); [now rewrite to_s32_id | int_ring].
Qed.

Lemma rc_inflate_grows_witness :
  ('(_, h1) ← rc_inflate 1%positive 5 (-2) one_rect;
   rc_inflate 1%positive (int_neg 5) (int_neg (-2)) h1)
  = Some (1%positive, one_rect).
Proof.
  refine (proj2 (rc_inflate_grows one_rect 1%positive (mkRECT 10 20 110 70)
                   5 (-2) eq_refl _)).
  unfold RECT_ok, is_s32. simpl. lia.
Defined.

(** X26: [rc_set_pos (rc, x, y)] is [rc_move] by the distance from the
    rect's left and top to [x] and [y]. *)
Theorem rc_set_pos_is_move (h : gmap positive RECT) (rc : positive) (r : RECT)
    (x y : Z) :
  h !! rc = Some r -> is_s32 x -> is_s32 y ->
  rc_set_pos rc x y h
    = rc_move rc (int_sub x (rc_left r)) (int_sub y (rc_top r)) h.
Proof.
  intros Hr Hx Hy.
  rewrite (rc_set_pos_spec h rc r Hr), (rc_move_spec h rc r Hr).
  do 3 f_equal. f_equal.
  - transitivity (to_s32 x); [now rewrite to_s32_id | int_ring].
  - transitivity (to_s32 y); [now rewrite to_s32_id | int_ring].
Qed.

Lemma rc_set_pos_is_move_witness :
  rc_set_pos 1%positive (-5) 7 one_rect
    = rc_move 1%positive (int_sub (-5) 10) (int_sub 7 20) one_rect.
Proof.
  apply (rc_set_pos_is_move one_rect 1%positive (mkRECT 10 20 110 70));
    [reflexivity | unfold is_s32; lia | unfold is_s32; lia].
Defined.

(** X27: [rc_inflate] by [dw], [dh] is [rc_inflate2] by the rect
    [(-dw, -dh, dw, dh)]; and [rc_inflate2] of a rect by itself doubles
    its four edges. *)
Theorem rc_inflate_is_inflate2 (h : gmap positive RECT) (rc dr : positive)
    (r : RECT) (dw dh : Z) :
  h !! rc = Some r ->
  (h !! dr = Some (mkRECT (int_neg dw) (int_neg dh) dw dh) ->
     rc_inflate rc dw dh h = rc_inflate2 rc dr h) /\
  rc_inflate2 rc rc h =
    Some (rc, <[rc := mkRECT (int_mul 2 (rc_left r)) (int_mul 2 (rc_top r))
                        (int_mul 2 (rc_right r))
                        (int_mul 2 (rc_bottom r))]> h).
Proof.
  intros Hr. split.
  - intros Hdr.
    rewrite (rc_inflate_spec h rc r Hr), (rc_inflate2_spec h rc r Hr dr _ Hdr).
    simpl. do 3 f_equal. f_equal; int_ring.
  - rewrite (rc_inflate2_spec h rc r Hr rc r Hr).
    do 3 f_equal. f_equal; int_ring.
Qed.

Lemma rc_inflate_is_inflate2_witness :
  rc_inflate 1%positive 5 3 rect_and_margin
    = rc_inflate2 1%positive 2%positive rect_and_margin.
Proof.
  exact (proj1 (rc_inflate_is_inflate2 rect_and_margin 1%positive 2%positive
                  (mkRECT 10 20 110 70) 5 3 eq_refl) eq_refl).
Defined.

(* ===================================================================== *)
(** * More on vectors *)
(* ===================================================================== *)

Lemma vec_dot_value (h : gmap positive VECTOR) (va vb : positive)
    (a b : VECTOR) :
  h !! va = Some a -> h !! vb = Some b ->
  vec_dot va vb h =
    Some (int_add (int_add (fxmul (vec_x a) (vec_x b))
                           (fxmul (vec_y a) (vec_y b)))
                  (fxmul (vec_z a) (vec_z b))).
Proof.
  intros Ha Hb. unfold vec_dot, binop.
  now rewrite !(load_Some _ _ _ _ Ha), !(load_Some _ _ _ _ Hb).
Qed.

Lemma fxmul_comm (fa fb : Z) : fxmul fa fb = fxmul fb fa.
Proof. unfold fxmul, int_mul. now rewrite Z.mul_comm. Qed.

(** X28: [vec_sub_eq] undoes [vec_add_eq] of another vector, also when
    components wrap around; when the operand is the destination itself,
    the pair leaves the zero vector instead. *)
Theorem vec_add_eq_sub_eq (h : gmap positive VECTOR) (vd vb : positive)
    (d b : VECTOR) :
  h !! vd = Some d -> h !! vb = Some b -> VECTOR_ok d ->
  (vd <> vb ->
     ('(_, h1) ← vec_add_eq vd vb h; vec_sub_eq vd vb h1) = Some (vd, h)) /\
  (vd = vb ->
     ('(_, h1) ← vec_add_eq vd vb h; vec_sub_eq vd vb h1)
       = Some (vd, <[vd := mkVECTOR 0 0 0]> h)).
Proof.
  intros Hd Hb (Hx & Hy & Hz).
  rewrite (vec_add_eq_spec h vd vb d b Hd Hb). simpl. split.
  - intros Hne.
    rewrite (vec_sub_eq_spec _ vd vb _ b (lookup_insert_eq _ _ _))
      by now rewrite lookup_insert_ne.
    rewrite insert_insert_eq. simpl. do 2 f_equal.
    apply insert_id. rewrite Hd. f_equal. destruct d as [x y z]. simpl in *.
    f_equal; symmetry; now apply int_sub_add_cancel.
  - intros <-. assert (b = d) as -> by congruence.
    rewrite (vec_sub_eq_spec _ vd vd _ _ (lookup_insert_eq _ _ _)
               (lookup_insert_eq _ _ _)).
    rewrite insert_insert_eq. simpl. do 3 f_equal. f_equal; int_ring.
Qed.

Lemma vec_add_eq_sub_eq_witness :
  ('(_, h1) ← vec_add_eq 1%positive 2%positive four_vectors;
   vec_sub_eq 1%positive 2%positive h1) = Some (1%positive, four_vectors).
Proof.
  refine (proj1 (vec_add_eq_sub_eq four_vectors 1%positive 2%positive
                   (mkVECTOR 384 (-512) 64) (mkVECTOR 512 128 (-1024))
                   eq_refl eq_refl _) _).
  - unfold VECTOR_ok, is_s32. simpl. lia.
  - discriminate.
Defined.

(** X29: [vec_dot] is symmetric, and the dot product with the unit vector
    of the x axis, (1.0, 0, 0), is the x component of the other vector,
    when that component times 256 does not overflow. *)
Theorem vec_dot_symmetric_axis (h : gmap positive VECTOR) (va vb : positive)
    (a b : VECTOR) :
  h !! va = Some a -> h !! vb = Some b ->
  vec_dot va vb h = vec_dot vb va h /\
  (b = mkVECTOR FIX_SCALE 0 0 -> is_s32 (vec_x a * 256) ->
     vec_dot va vb h = Some (vec_x a)).
Proof.
  intros Ha Hb.
  rewrite (vec_dot_value h va vb a b Ha Hb), (vec_dot_value h vb va b a Hb Ha).
  split.
  - now rewrite (fxmul_comm (vec_x a)), (fxmul_comm (vec_y a)),
      (fxmul_comm (vec_z a)).
  - intros -> Hax. simpl. f_equal.
    assert (H1 : fxmul (vec_x a) FIX_SCALE = vec_x a).
    { unfold fxmul, int_mul. rewrite FIX_SCALE_256.
      rewrite to_s32_id, shiftr_8_div by assumption. apply Z.div_mul. lia. }
    assert (H0 : forall z, fxmul z 0 = 0).
    { intros z. unfold fxmul, int_mul. now rewrite Z.mul_0_r. }
    rewrite H1, !H0. unfold is_s32 in Hax. int_arith.
Qed.

Lemma vec_dot_symmetric_axis_witness :
  vec_dot 1%positive 2%positive vector_and_axis
    = vec_dot 2%positive 1%positive vector_and_axis /\
  vec_dot 1%positive 2%positive vector_and_axis = Some 384.
Proof.
  destruct (vec_dot_symmetric_axis vector_and_axis 1%positive 2%positive
              (mkVECTOR 384 (-512) 64) (mkVECTOR 256 0 0) eq_refl eq_refl)
    as [Hs Hax].
  split; [exact Hs|]. apply Hax; [reflexivity | unfold is_s32; simpl; lia].
Defined.
